(** * migrate-to-slf4j.py: a shallow embedding and its properties

    The script rewrites Java sources: it inserts the SLF4J imports and a
    logger field, and turns [System.out.println] / [System.err.println]
    calls into [log.info] / [log.error] calls, with regular expressions
    applied to the whole text of each file.

    A Python [str] is a sequence of Unicode code points, modelled as a list
    of [N].  The regular expressions of the script are embedded as a small
    syntax with a backtracking matcher that follows the search order of
    Python's [re] module (leftmost match, greedy repetition, backtracking
    into the last repetition first). *)

From Stdlib Require Import Ascii String.
From Stdlib Require Import List NArith Bool Arith Lia.
Import ListNotations.

Set Implicit Arguments.
Set Warnings "-register-all".

(** ** Text *)

Definition char := N.
Definition text := list char.

(** The code points of a literal of the script (all of them are ASCII). *)
Definition str (s : string) : text := map N_of_ascii (list_ascii_of_string s).

(** [a == b] on strings. *)
Fixpoint text_eqb (a b : text) : bool :=
  match a, b with
  | [], [] => true
  | x :: a', y :: b' => N.eqb x y && text_eqb a' b'
  | _, _ => false
  end.

(** [a in b] of Python on strings: [a] occurs in [b] as a substring. *)
Fixpoint starts_with (w s : text) : bool :=
  match w, s with
  | [], _ => true
  | a :: w', b :: s' => N.eqb a b && starts_with w' s'
  | _ :: _, [] => false
  end.

Fixpoint contains (w s : text) : bool :=
  starts_with w s ||
  match s with
  | [] => false
  | _ :: s' => contains w s'
  end.

(** [s.endswith(w)] *)
Definition ends_with (w s : text) : bool :=
  starts_with (rev w) (rev s).

(** ** Character classes of [re] on [str] patterns

    [\s] is [Py_UNICODE_ISSPACE]; [\w] is [Py_UNICODE_ISALNUM] or the
    underscore.  The alphanumeric property of the code points above 127
    comes from the Unicode database of the interpreter, which is a
    parameter of the development ([uni_alnum]). *)

Definition in_range (lo hi c : char) : bool := (N.leb lo c && N.leb c hi)%bool.

Definition is_space (c : char) : bool :=
  (in_range 9 13 c || in_range 28 32 c || N.eqb c 133 || N.eqb c 160
   || N.eqb c 5760 || in_range 8192 8202 c || N.eqb c 8232 || N.eqb c 8233
   || N.eqb c 8239 || N.eqb c 8287 || N.eqb c 12288)%N.

Definition ascii_alnum (c : char) : bool :=
  (in_range 48 57 c || in_range 65 90 c || in_range 97 122 c)%N.

Definition QUOTE : char := 34%N.
Definition RPAREN : char := 41%N.
Definition DOT : char := 46%N.
Definition UNDERSCORE : char := 95%N.

Definition not_quote (c : char) : bool := negb (N.eqb c QUOTE).
Definition not_rparen (c : char) : bool := negb (N.eqb c RPAREN).

(** ** Regular expressions

    Only the constructs the script uses: literals, a greedy [+] or [*] over
    a set of characters, sequence, a greedy optional part and numbered
    capturing groups. *)

Inductive regex : Type :=
| RLit (w : text)
| RPlus (cls : char -> bool)
| RStar (cls : char -> bool)
| RSeq (r1 r2 : regex)
| ROpt (r : regex)
| RGroup (n : nat) (r : regex).

Definition captures := list (nat * text).

Fixpoint group (n : nat) (caps : captures) : option text :=
  match caps with
  | [] => None
  | (k, t) :: caps' => if Nat.eqb k n then Some t else group n caps'
  end.

Section Matcher.
Variable R : Type.

(** The continuation receives the text matched so far by the construct, the
    rest of the input and the groups.  A [None] from the continuation makes
    the matcher backtrack. *)
Definition kont := text -> text -> captures -> option R.

Fixpoint strip_prefix (w s : text) : option text :=
  match w, s with
  | [], _ => Some s
  | a :: w', b :: s' => if N.eqb a b then strip_prefix w' s' else None
  | _ :: _, [] => None
  end.

(** Greedy repetition of a set: the longest run first, then shorter ones. *)
Fixpoint greedy (cls : char -> bool) (s : text) (caps : captures) (k : kont)
  : option R :=
  match s with
  | c :: s' =>
      if cls c then
        match greedy cls s' caps (fun m rest cs => k (c :: m) rest cs) with
        | Some x => Some x
        | None => k [] s caps
        end
      else k [] s caps
  | [] => k [] [] caps
  end.

Fixpoint rmatch (r : regex) (s : text) (caps : captures) (k : kont) : option R :=
  match r with
  | RLit w =>
      match strip_prefix w s with
      | Some rest => k w rest caps
      | None => None
      end
  | RPlus cls =>
      match s with
      | c :: s' =>
          if cls c then greedy cls s' caps (fun m rest cs => k (c :: m) rest cs)
          else None
      | [] => None
      end
  | RStar cls => greedy cls s caps k
  | RSeq r1 r2 =>
      rmatch r1 s caps (fun m1 s1 c1 =>
        rmatch r2 s1 c1 (fun m2 s2 c2 => k (m1 ++ m2) s2 c2))
  | ROpt r' =>
      match rmatch r' s caps k with
      | Some x => Some x
      | None => k [] s caps
      end
  | RGroup n r' =>
      rmatch r' s caps (fun m rest cs => k m rest ((n, m) :: cs))
  end.
End Matcher.

(** The texts an expression stands for, with the groups a match adds:
    the meaning of the expressions, apart from the search order. *)

Inductive matches : regex -> text -> captures -> captures -> Prop :=
| M_Lit w cs : matches (RLit w) w cs cs
| M_Plus cls c m cs :
    cls c = true -> Forall (fun x => cls x = true) m ->
    matches (RPlus cls) (c :: m) cs cs
| M_Star cls m cs :
    Forall (fun x => cls x = true) m -> matches (RStar cls) m cs cs
| M_Seq r1 r2 m1 m2 cs0 cs1 cs2 :
    matches r1 m1 cs0 cs1 -> matches r2 m2 cs1 cs2 ->
    matches (RSeq r1 r2) (m1 ++ m2) cs0 cs2
| M_OptNo r cs : matches (ROpt r) [] cs cs
| M_OptYes r m cs cs' : matches r m cs cs' -> matches (ROpt r) m cs cs'
| M_Group n r m cs cs' :
    matches r m cs cs' -> matches (RGroup n r) m cs ((n, m) :: cs').

(** A match anchored at the head of the input: the matched text, the rest of
    the input and the groups. *)
Record rmatch_result : Type := MkMatch {
  m_text : text;
  m_rest : text;
  m_caps : captures
}.

Definition match_here (r : regex) (s : text) : option rmatch_result :=
  rmatch r s [] (fun m rest cs => Some (MkMatch m rest cs)).

(** A match object of [re]: where it starts, and what it matched. *)
Record match_obj : Type := MkObj {
  mo_start : nat;
  mo_text : text;
  mo_caps : captures
}.

Definition mo_end (m : match_obj) : nat := mo_start m + length (mo_text m).

(** [re.search]: the first position at which the expression matches. *)
Fixpoint search_from (r : regex) (s : text) (pos : nat) : option match_obj :=
  match match_here r s with
  | Some m => Some (MkObj pos (m_text m) (m_caps m))
  | None =>
      match s with
      | [] => None
      | _ :: s' => search_from r s' (S pos)
      end
  end.

Definition search (r : regex) (s : text) : option match_obj := search_from r s 0.

(** [re.finditer]: the successive matches, none overlapping the one before.
    [skip] counts the characters of the current match still to pass.  After
    an empty match the scan moves one character on. *)
Fixpoint finditer_from (r : regex) (s : text) (pos skip : nat) : list match_obj :=
  match skip with
  | S k =>
      match s with
      | [] => []
      | _ :: s' => finditer_from r s' (S pos) k
      end
  | O =>
      match match_here r s with
      | Some m =>
          MkObj pos (m_text m) (m_caps m) ::
          match s with
          | [] => []
          | _ :: s' => finditer_from r s' (S pos) (pred (length (m_text m)))
          end
      | None =>
          match s with
          | [] => []
          | _ :: s' => finditer_from r s' (S pos) 0
          end
      end
  end.

Definition finditer (r : regex) (s : text) : list match_obj := finditer_from r s 0 0.

(** Replacement templates of [re.sub]: literal text and group references. *)
Inductive titem : Type :=
| TLit (w : text)
| TGroup (n : nat).

Definition template := list titem.

Fixpoint expand (t : template) (caps : captures) : text :=
  match t with
  | [] => []
  | TLit w :: t' => w ++ expand t' caps
  | TGroup n :: t' =>
      match group n caps with
      | Some g => g ++ expand t' caps
      | None => expand t' caps
      end
  end.

(** [re.sub]: every match, from left to right, is replaced by the expanded
    template; the text between matches is copied. *)
Fixpoint sub_from (r : regex) (t : template) (s : text) (skip : nat) : text :=
  match skip with
  | S k =>
      match s with
      | [] => []
      | _ :: s' => sub_from r t s' k
      end
  | O =>
      match match_here r s with
      | Some m =>
          expand t (m_caps m) ++
          match length (m_text m), s with
          | _, [] => []
          | O, c :: s' => c :: sub_from r t s' 0
          | S k, _ :: s' => sub_from r t s' k
          end
      | None =>
          match s with
          | [] => []
          | c :: s' => c :: sub_from r t s' 0
          end
      end
  end.

Definition sub (r : regex) (t : template) (s : text) : text := sub_from r t s 0.

Fixpoint rseq (rs : list regex) : regex :=
  match rs with
  | [] => RLit []
  | [r] => r
  | r :: rs' => RSeq r (rseq rs')
  end.

(** ** The script *)

Definition NL : char := 10%N.
Definition LBRACE : char := 123%N.
Definition SLASH : char := 47%N.

Section Script.

(** [Py_UNICODE_ISALNUM] on the code points that are not ASCII. *)
Variable uni_alnum : char -> bool.

Definition is_word (c : char) : bool :=
  if N.ltb c 128 then ascii_alnum c || N.eqb c UNDERSCORE else uni_alnum c.

Definition word_or_dot (c : char) : bool := is_word c || N.eqb c DOT.

(** *** The expressions of the script *)

(** ['import org.slf4j.Logger'] *)
Definition SLF4J_MARKER : text := str "import org.slf4j.Logger".

(** [r'private\s+static\s+final\s+Logger\s+log\s*='] *)
Definition logger_decl_pattern : regex :=
  rseq [RLit (str "private"); RPlus is_space; RLit (str "static");
        RPlus is_space; RLit (str "final"); RPlus is_space;
        RLit (str "Logger"); RPlus is_space; RLit (str "log");
        RStar is_space; RLit (str "=")].

(** [r'public\s+class\s+(\w+)'] *)
Definition class_name_pattern : regex :=
  rseq [RLit (str "public"); RPlus is_space; RLit (str "class");
        RPlus is_space; RGroup 1 (RPlus is_word)].

(** [r'(import\s+[\w.]+;)'] *)
Definition import_pattern : regex :=
  RGroup 1 (rseq [RLit (str "import"); RPlus is_space; RPlus word_or_dot;
                  RLit (str ";")]).

(** [rf'(@Configuration\s+)?public\s+class\s+{class_name}\s*{{'].  The
    class name is spliced into the expression; it was matched by [\w+], and
    no word character is special in an expression, so it stands for
    itself. *)
Definition class_pattern (class_name : text) : regex :=
  rseq [ROpt (RGroup 1 (RSeq (RLit (str "@Configuration")) (RPlus is_space)));
        RLit (str "public"); RPlus is_space; RLit (str "class");
        RPlus is_space; RLit class_name; RStar is_space; RLit [LBRACE]].

(** ['\nimport org.slf4j.Logger;\nimport org.slf4j.LoggerFactory;'] *)
Definition slf4j_imports : text :=
  [NL] ++ str "import org.slf4j.Logger;" ++ [NL]
  ++ str "import org.slf4j.LoggerFactory;".

(** [f'\n\n    private static final Logger log = LoggerFactory.getLogger({class_name}.class);'] *)
Definition logger_declaration (class_name : text) : text :=
  [NL; NL] ++ str "    private static final Logger log = LoggerFactory.getLogger("
  ++ class_name ++ str ".class);".

(** The three patterns of a stream, in the order of the script, each with
    its replacement (Q stands for the double quote character):
    [System\.out\.println\(Q([^Q]+)Q\);]  gives  [log.info(Q\1Q);]
    [System\.out\.println\(Q([^Q]+):\s*Q\s*\+\s*([^)]+)\);]  gives
    [log.info(Q\1: {}Q, \2);]
    [System\.out\.println\(([^Q]+)\);]  gives  [log.info(Q{}Q,\1);]
    and the same with [err] and [error]. *)
Definition println_open (stream : text) : text :=
  str "System." ++ stream ++ str ".println(".

Definition log_open (level : text) : text := str "log." ++ level ++ str "(".

Definition pattern_literal (stream : text) : regex :=
  rseq [RLit (println_open stream ++ [QUOTE]); RGroup 1 (RPlus not_quote);
        RLit ([QUOTE] ++ str ");")].

Definition template_literal (level : text) : template :=
  [TLit (log_open level ++ [QUOTE]); TGroup 1; TLit ([QUOTE] ++ str ");")].

Definition pattern_concat (stream : text) : regex :=
  rseq [RLit (println_open stream ++ [QUOTE]); RGroup 1 (RPlus not_quote);
        RLit (str ":"); RStar is_space; RLit [QUOTE]; RStar is_space;
        RLit (str "+"); RStar is_space; RGroup 2 (RPlus not_rparen);
        RLit (str ");")].

Definition template_concat (level : text) : template :=
  [TLit (log_open level ++ [QUOTE]); TGroup 1;
   TLit (str ": {}" ++ [QUOTE] ++ str ", "); TGroup 2; TLit (str ");")].

Definition pattern_variable (stream : text) : regex :=
  rseq [RLit (println_open stream); RGroup 1 (RPlus not_quote);
        RLit (str ");")].

Definition template_variable (level : text) : template :=
  [TLit (log_open level ++ [QUOTE] ++ str "{}" ++ [QUOTE] ++ str ",");
   TGroup 1; TLit (str ");")].

Definition println_patterns (stream level : text) : list (regex * template) :=
  [(pattern_literal stream, template_literal level);
   (pattern_concat stream, template_concat level);
   (pattern_variable stream, template_variable level)].

(** *** The functions of the script *)

Definition has_slf4j_import (content : text) : bool :=
  contains SLF4J_MARKER content.

Definition has_logger_declaration (content : text) : bool :=
  match search logger_decl_pattern content with
  | Some _ => true
  | None => false
  end.

Definition get_class_name (content : text) : option text :=
  match search class_name_pattern content with
  | Some m => group 1 (mo_caps m)
  | None => None
  end.

(** [content[:pos] + piece + content[pos:]] *)
Definition insert_at (pos : nat) (piece content : text) : text :=
  firstn pos content ++ piece ++ skipn pos content.

Definition add_slf4j_import (content : text) : text :=
  match last (map Some (finditer import_pattern content)) None with
  | Some last_import => insert_at (mo_end last_import) slf4j_imports content
  | None => content
  end.

Definition add_logger_declaration (content class_name : text) : text :=
  match search (class_pattern class_name) content with
  | Some m => insert_at (mo_end m) (logger_declaration class_name) content
  | None => content
  end.

Definition apply_patterns (patterns : list (regex * template)) (content : text)
  : text :=
  fold_left (fun c pr => sub (fst pr) (snd pr) c) patterns content.

Definition replace_system_out (content : text) : text :=
  apply_patterns (println_patterns (str "out") (str "info")) content.

Definition replace_system_err (content : text) : text :=
  apply_patterns (println_patterns (str "err") (str "error")) content.

(** *** Files and the console

    The file system maps a path to the text of the file: the script reads
    and writes with the same encoding, so the stored text stands for the
    bytes on disk (a file that is not valid UTF-8 makes [f.read] raise, as a
    missing file does).  Every call of [f.write] is also recorded, in
    order. *)

Definition filesystem := text -> option text.

Definition fs_write (fs : filesystem) (path content : text) : filesystem :=
  fun q => if text_eqb q path then Some content else fs q.

(** The lines the script prints. *)
Inductive message : Type :=
| MsgProcessing (path : text)       (* Procesando: ... *)
| MsgSkipped                        (* Sin System.out/err - omitiendo *)
| MsgAddingImports                  (* Agregando imports de SLF4J *)
| MsgAddingLogger (class_name : text) (* Agregando logger para clase ... *)
| MsgUpdated                        (* Archivo actualizado *)
| MsgWouldUpdate                    (* [DRY-RUN] Se actualizaria *)
| MsgNoChanges                      (* Sin cambios necesarios *)
| MsgDryRunBanner                   (* MODO DRY-RUN - No se modificaran archivos *)
| MsgFound (n : nat)                (* Encontrados n archivos Java *)
| MsgBlank
| MsgSummary (dry_run : bool) (updated total : nat)
| MsgHint.                          (* Ejecuta sin --dry-run ... *)

Record world : Type := MkWorld {
  w_fs : filesystem;
  w_console : list message;          (* oldest first *)
  w_writes : list (text * text)      (* path and text of every write *)
}.

Definition say (m : message) (w : world) : world :=
  MkWorld (w_fs w) (w_console w ++ [m]) (w_writes w).

Definition write_file (path content : text) (w : world) : world :=
  MkWorld (fs_write (w_fs w) path content) (w_console w)
          (w_writes w ++ [(path, content)]).

(** The steps of [process_file] between the relevance test and the
    comparison, with the lines they print: the value of [content] at the
    comparison. *)
Definition import_step (content : text) : text :=
  if negb (has_slf4j_import content) then add_slf4j_import content
  else content.

Definition logger_step (content : text) : text :=
  match get_class_name content with
  | Some class_name =>
      if negb (text_eqb class_name []) && negb (has_logger_declaration content)
      then add_logger_declaration content class_name
      else content
  | None => content
  end.

Definition is_relevant (content : text) : bool :=
  negb (negb (contains (str "System.out") content)
        && negb (contains (str "System.err") content)).

(** What [process_file] leaves behind: the world, the value it returns and
    the value of its variable [content] when it returns. *)
Record processed : Type := MkProcessed {
  p_world : world;
  p_result : bool;
  p_content : text
}.

(** [process_file(file_path, dry_run)].  [None] stands for the exception of
    [open] on a path that cannot be read. *)
Definition process_file (file_path : text) (dry_run : bool) (w : world)
  : option processed :=
  let w := say (MsgProcessing file_path) w in
  match w_fs w file_path with
  | None => None
  | Some content =>
      let original_content := content in
      if negb (contains (str "System.out") content)
         && negb (contains (str "System.err") content)
      then Some (MkProcessed (say MsgSkipped w) false content)
      else
        let '(content, w) :=
          if negb (has_slf4j_import content)
          then (add_slf4j_import content, say MsgAddingImports w)
          else (content, w) in
        let class_name := get_class_name content in
        let '(content, w) :=
          match class_name with
          | Some cn =>
              if negb (text_eqb cn []) && negb (has_logger_declaration content)
              then (add_logger_declaration content cn, say (MsgAddingLogger cn) w)
              else (content, w)
          | None => (content, w)
          end in
        let content := replace_system_out content in
        let content := replace_system_err content in
        if negb (text_eqb content original_content) then
          if negb dry_run then
            let w := write_file file_path content w in
            Some (MkProcessed (say MsgUpdated w) true content)
          else Some (MkProcessed (say MsgWouldUpdate w) true content)
        else Some (MkProcessed (say MsgNoChanges w) false content)
  end.

(** The text [process_file] computes from the text of a relevant file. *)
Definition transform (content : text) : text :=
  replace_system_err (replace_system_out (logger_step (import_step content))).

(** The messages between the first line and the verdict. *)
Definition step_messages (content : text) : list message :=
  (if negb (has_slf4j_import content) then [MsgAddingImports] else [])
  ++ match get_class_name (import_step content) with
     | Some cn =>
         if negb (text_eqb cn [])
            && negb (has_logger_declaration (import_step content))
         then [MsgAddingLogger cn] else []
     | None => []
     end.

(** [process_file] by cases, as one equation. *)
Definition process_file_outcome (file_path : text) (dry_run : bool) (w : world)
  (content : text) : processed :=
  let console := w_console w ++ [MsgProcessing file_path] in
  if negb (is_relevant content) then
    MkProcessed (MkWorld (w_fs w) (console ++ [MsgSkipped]) (w_writes w))
                false content
  else
    let console := console ++ step_messages content in
    if text_eqb (transform content) content then
      MkProcessed (MkWorld (w_fs w) (console ++ [MsgNoChanges]) (w_writes w))
                  false (transform content)
    else if dry_run then
      MkProcessed (MkWorld (w_fs w) (console ++ [MsgWouldUpdate]) (w_writes w))
                  true (transform content)
    else
      MkProcessed
        (MkWorld (fs_write (w_fs w) file_path (transform content))
                 (console ++ [MsgUpdated])
                 (w_writes w ++ [(file_path, transform content)]))
        true (transform content).

(** *** Discovery *)

(** A directory: its sub-directories and its files, in the order the
    operating system lists them. *)
Inductive dirtree : Type :=
| Dir (subdirs : list (text * dirtree)) (files : list text).

(** [os.path.join] of two components (POSIX). *)
Definition path_join (a b : text) : text :=
  if starts_with (str "/") b then b
  else if text_eqb a [] || ends_with (str "/") a then a ++ b
  else a ++ str "/" ++ b.

(** [os.walk(top)], top-down: one triple [(root, dirs, files)] for the
    directory, then the triples of each sub-directory. *)
Fixpoint walk (top : text) (t : dirtree) : list (text * list text * list text) :=
  match t with
  | Dir subdirs files =>
      (top, map fst subdirs, files) ::
      (fix walk_all (l : list (text * dirtree)) :=
         match l with
         | [] => []
         | (name, d) :: l' => walk (path_join top name) d ++ walk_all l'
         end) subdirs
  end.

(** The directories of a tree, each with the path [os.walk] gives it. *)
Fixpoint directories (top : text) (t : dirtree) : list (text * dirtree) :=
  match t with
  | Dir subdirs files =>
      (top, t) ::
      (fix dirs_all (l : list (text * dirtree)) :=
         match l with
         | [] => []
         | (name, d) :: l' => directories (path_join top name) d ++ dirs_all l'
         end) subdirs
  end.

Definition dir_files (t : dirtree) : list text :=
  match t with Dir _ files => files end.

Definition dir_names (t : dirtree) : list text :=
  match t with Dir subdirs _ => map fst subdirs end.

(** The paths of the files that lie under a directory, at any depth. *)
Definition files_under (top : text) (t : dirtree) : list text :=
  flat_map (fun rd => map (path_join (fst rd)) (dir_files (snd rd)))
           (directories top t).

(** The name of a directory entry is not empty and holds no slash. *)
Definition is_name (n : text) : bool :=
  negb (text_eqb n []) && negb (existsb (N.eqb SLASH) n).

Fixpoint names_ok (t : dirtree) : bool :=
  match t with
  | Dir subdirs files =>
      forallb is_name files &&
      (fix ok_all (l : list (text * dirtree)) :=
         match l with
         | [] => true
         | (name, d) :: l' => is_name name && names_ok d && ok_all l'
         end) subdirs
  end.

(** A path that [os.path.join] extends with a separator. *)
Definition good_root (r : text) : bool :=
  negb (text_eqb r []) && negb (ends_with (str "/") r).

(** The test of the first loop of [main] on the path of a directory. *)
Definition is_excluded (root : text) : bool :=
  contains (str "target") root || contains (str ".git") root.

(** The first loop of [main]. *)
Definition collect_dir (entry : text * list text * list text) : list text :=
  let '(root, _, files) := entry in
  if contains (str "target") root || contains (str ".git") root then []
  else map (path_join root) (filter (ends_with (str ".java")) files).

Definition java_files (t : dirtree) : list text :=
  flat_map collect_dir (walk (str ".") t).

(** The second loop of [main]. *)
Fixpoint process_all (files : list text) (dry_run : bool) (updated_count : nat)
  (w : world) : option (nat * world) :=
  match files with
  | [] => Some (updated_count, w)
  | file_path :: files' =>
      match process_file file_path dry_run w with
      | None => None
      | Some p =>
          let updated_count :=
            if p_result p then S updated_count else updated_count in
          process_all files' dry_run updated_count (say MsgBlank (p_world p))
      end
  end.

(** [main()], from the arguments of the command line, the tree under the
    current directory and the world. *)
Definition main (argv : list text) (t : dirtree) (w : world) : option world :=
  let dry_run := existsb (text_eqb (str "--dry-run")) argv in
  let w := if dry_run then say MsgDryRunBanner w else w in
  let files := java_files t in
  let w := say (MsgFound (length files)) w in
  match process_all files dry_run 0 w with
  | None => None
  | Some (updated_count, w) =>
      let w := say (MsgSummary dry_run updated_count (length files)) w in
      Some (if dry_run then say MsgHint w else w)
  end.

End Script.

(** ** Sample inputs *)

(** An interpreter table with no alphanumeric code point outside ASCII. *)
Definition ascii_only (c : char) : bool := false.

(** A file system with one file, and a world around it. *)
Definition single_file (path content : text) : filesystem :=
  fun q => if text_eqb q path then Some content else None.

Definition fresh_world (fs : filesystem) : world := MkWorld fs [] [].

Definition quoted (s : string) : text := [QUOTE] ++ str s ++ [QUOTE].

(** The calls and the log statements of the examples. *)
Definition OUT : text := str "out".
Definition ERR : text := str "err".
Definition INFO : text := str "info".
Definition ERROR : text := str "error".

Definition hello_call : text :=
  str "System.out.println(" ++ quoted "Hello" ++ str ");".
Definition hello_log : text := str "log.info(" ++ quoted "Hello" ++ str ");".
Definition value_call : text :=
  str "System.err.println(" ++ quoted "Value: " ++ str " + x);".
Definition value_log : text :=
  str "log.error(" ++ quoted "Value: {}" ++ str ", x);".

Definition SEMICOLON : char := 59%N.
Definition LPAREN : char := 40%N.
Definition CAPITAL_S : char := 83%N.


(** The import lines with the semicolon they follow, and the declaration
    with the brace it follows. *)
Definition imports_in_place : text := SEMICOLON :: slf4j_imports.





(** The text of a logger declaration as the script writes it, up to the
    equals sign. *)
Definition decl_text : text := str "private static final Logger log =".

(** A Java file of the usual shape. *)
Definition sample_java : text :=
  str "import a.b;" ++ [NL] ++ str "public class Foo {" ++ [NL]
  ++ str "  void f() { " ++ hello_call ++ str " }" ++ [NL] ++ str "}" ++ [NL].





(** A tree with a build directory next to a source directory. *)
Definition sample_tree : dirtree :=
  Dir [(str "target", Dir [(str "classes", Dir [] [str "A.java"])] [str "B.java"]);
       (str "src", Dir [] [str "C.java"])]
      [str "D.java"].

(** ** Words in a text *)

(** [w] occurs in [s]. *)
Definition occurs (w s : text) : Prop := exists a b, s = a ++ w ++ b.





(** One of the three call patterns of a stream. *)
Definition call_pattern (stream : text) (r : regex) : Prop :=
  r = pattern_literal stream \/ r = pattern_concat stream
  \/ r = pattern_variable stream.


(** The two markers of the relevance test, by stream. *)
Definition marker (stream : text) : text := str "System." ++ stream.


(** The call rewriter, as [process_file] applies it. *)
Definition rewrite_calls (content : text) : text :=
  replace_system_err (replace_system_out content).


(** The paths of the lines [Procesando: ...] of a console, in order. *)
Definition processed_paths (console : list message) : list text :=
  flat_map (fun m => match m with MsgProcessing p => [p] | _ => [] end) console.

(** The verdicts of a console that stand for a changed file. *)
Definition changed_verdicts (console : list message) : nat :=
  length (filter (fun m => match m with
                           | MsgUpdated | MsgWouldUpdate => true
                           | _ => false
                           end) console).

(** A repetition over a set cannot go on into this text. *)
Definition stops (cls : char -> bool) (rest : text) : Prop :=
  match rest with
  | [] => True
  | c :: _ => cls c = false
  end.





(** Inversion of a match of a sequence of constructs. *)
Ltac invert_matches :=
  repeat match goal with
    | H : matches (RSeq _ _) _ _ _ |- _ => inversion H; subst; clear H
    | H : matches (RGroup _ _) _ _ _ |- _ => inversion H; subst; clear H
    | H : matches (RLit _) _ _ _ |- _ => inversion H; subst; clear H
    | H : matches (RPlus _) _ _ _ |- _ => inversion H; subst; clear H
    | H : matches (RStar _) _ _ _ |- _ => inversion H; subst; clear H
    end.

(** Equality of two concatenations, up to the way they are nested. *)
Ltac same_text := repeat rewrite <- app_assoc; cbn [app]; reflexivity.

(** * Properties *)

(** ** Texts *)

Lemma strip_prefix_spec (w s rest : text) :
  strip_prefix w s = Some rest <-> s = w ++ rest.
Proof.
  revert s; induction w as [|a w IH]; intros s; simpl.
  - split; intros H; [injection H as ->; reflexivity | subst; reflexivity].
  - destruct s as [|b s]; [split; discriminate|].
    destruct (N.eqb_spec a b) as [->|Hne].
    + rewrite IH. split; intros H; [subst; reflexivity | now injection H].
    + split; [discriminate | intros H; injection H as H _; congruence].
Qed.

Lemma strip_prefix_app (w rest : text) : strip_prefix w (w ++ rest) = Some rest.
Proof. now apply strip_prefix_spec. Qed.

Lemma starts_with_spec (w s : text) :
  starts_with w s = true <-> exists rest, s = w ++ rest.
Proof.
  revert s; induction w as [|a w IH]; intros s; simpl.
  - split; [eauto | reflexivity].
  - destruct s as [|b s].
    + split; [discriminate | intros [r H]; discriminate].
    + rewrite andb_true_iff, N.eqb_eq, IH. split.
      * intros [-> [r ->]]. now exists r.
      * intros [r H]. injection H as -> ->. eauto.
Qed.

Lemma contains_spec (w s : text) :
  contains w s = true <-> exists a b, s = a ++ w ++ b.
Proof.
  induction s as [|c s IH].
  - simpl. rewrite orb_false_r, starts_with_spec. split.
    + intros [r H]. now exists [], r.
    + intros [a [b H]]. destruct a; [now exists b|discriminate].
  - cbn [contains]. rewrite orb_true_iff, starts_with_spec, IH. split.
    + intros [[r H] | [a [b H]]].
      * now exists [], r.
      * exists (c :: a), b. now rewrite H.
    + intros [a [b H]]. destruct a as [|x a].
      * left. now exists b.
      * right. injection H as _ H. now exists a, b.
Qed.

Lemma text_eqb_eq (a b : text) : text_eqb a b = true <-> a = b.
Proof.
  revert b; induction a as [|x a IH]; intros [|y b]; simpl;
    try (split; [discriminate|congruence]); [tauto|].
  rewrite andb_true_iff, N.eqb_eq, IH. split.
  - intros [-> ->]; reflexivity.
  - intros H; injection H; auto.
Qed.


Lemma text_eqb_neq (a b : text) : text_eqb a b = false <-> a <> b.
Proof.
  destruct (text_eqb a b) eqn:E.
  - apply text_eqb_eq in E. split; [discriminate|congruence].
  - split; [|reflexivity]. intros _ H. apply text_eqb_eq in H. congruence.
Qed.

(** ** The matcher finds only matches *)

Lemma greedy_sound (R : Type) (cls : char -> bool) (s : text) (cs : captures)
  (k : kont R) (x : R) :
  greedy cls s cs k = Some x ->
  exists m rest, s = m ++ rest /\ Forall (fun c => cls c = true) m
                 /\ k m rest cs = Some x.
Proof.
  revert k; induction s as [|c s IH]; intros k; simpl.
  - intros H. now exists [], [].
  - destruct (cls c) eqn:Hc.
    + destruct (greedy cls s cs _) eqn:Hg.
      * intros H; injection H as ->.
        apply IH in Hg as (m & rest & -> & Hall & Hk).
        exists (c :: m), rest. repeat split; auto.
      * intros H. now exists [], (c :: s).
    + intros H. now exists [], (c :: s).
Qed.

Lemma rmatch_sound (R : Type) (r : regex) :
  forall (s : text) (cs : captures) (k : kont R) (x : R),
    rmatch r s cs k = Some x ->
    exists m rest cs', s = m ++ rest /\ matches r m cs cs'
                       /\ k m rest cs' = Some x.
Proof.
  induction r as [w|cls|cls|r1 IH1 r2 IH2|r IH|n r IH]; intros s cs k x; simpl.
  - destruct (strip_prefix w s) as [rest|] eqn:Hp; [|discriminate].
    apply strip_prefix_spec in Hp. intros H.
    exists w, rest, cs. repeat split; auto. constructor.
  - destruct s as [|c s]; [discriminate|].
    destruct (cls c) eqn:Hc; [|discriminate].
    intros H. apply greedy_sound in H as (m & rest & -> & Hall & Hk).
    exists (c :: m), rest, cs. repeat split; auto. now constructor.
  - intros H. apply greedy_sound in H as (m & rest & -> & Hall & Hk).
    exists m, rest, cs. repeat split; auto. now constructor.
  - intros H. apply IH1 in H as (m1 & s1 & c1 & -> & Hm1 & H).
    apply IH2 in H as (m2 & s2 & c2 & -> & Hm2 & H).
    exists (m1 ++ m2), s2, c2. rewrite <- app_assoc. repeat split; auto.
    econstructor; eassumption.
  - destruct (rmatch r s cs k) eqn:Hr.
    + intros H; injection H as ->.
      apply IH in Hr as (m & rest & cs' & -> & Hm & H).
      exists m, rest, cs'. repeat split; auto. now constructor.
    + intros H. exists [], s, cs. repeat split; auto. constructor.
  - intros H. apply IH in H as (m & rest & cs' & -> & Hm & H).
    exists m, rest, ((n, m) :: cs'). repeat split; auto. now constructor.
Qed.

Lemma match_here_sound (r : regex) (s : text) (res : rmatch_result) :
  match_here r s = Some res ->
  s = m_text res ++ m_rest res /\ matches r (m_text res) [] (m_caps res).
Proof.
  unfold match_here. intros H.
  apply rmatch_sound in H as (m & rest & cs' & -> & Hm & H).
  injection H as <-. simpl. auto.
Qed.

(** ** What [process_file] does to the world *)

Section ProcessFile.
Variable uni_alnum : char -> bool.

Lemma process_file_eq (file_path : text) (dry_run : bool) (w : world) :
  process_file uni_alnum file_path dry_run w =
  match w_fs w file_path with
  | None => None
  | Some content => Some (process_file_outcome uni_alnum file_path dry_run w content)
  end.
Proof.
  unfold process_file, process_file_outcome, is_relevant,
    step_messages, transform, logger_step, import_step.
  cbn [say w_fs w_console w_writes].
  destruct (w_fs w file_path) as [content|]; [|reflexivity].
  destruct (negb (contains (str "System.out") content)
            && negb (contains (str "System.err") content)); cbn [negb].
  { reflexivity. }
  destruct (negb (has_slf4j_import content));
    (destruct (get_class_name uni_alnum _) as [cn|];
     [destruct (negb (text_eqb cn []) && negb (has_logger_declaration _))|]);
    cbn [say write_file w_fs w_console w_writes];
    (destruct (text_eqb _ content); cbn [negb];
     [|destruct dry_run; cbn [negb say write_file w_fs w_console w_writes]]);
    unfold say, write_file; cbn [w_fs w_console w_writes];
    rewrite <- ?app_assoc; cbn [app]; rewrite ?app_nil_r; reflexivity.
Qed.

(** In preview mode a file keeps its world but for the console. *)
Lemma process_file_dry_run (file_path : text) (w : world) (p : processed) :
  process_file uni_alnum file_path true w = Some p ->
  w_fs (p_world p) = w_fs w /\ w_writes (p_world p) = w_writes w.
Proof.
  rewrite process_file_eq. destruct (w_fs w file_path) as [c|]; [|discriminate].
  intros H; injection H as <-. unfold process_file_outcome.
  destruct (negb (is_relevant c)); [now split|].
  destruct (text_eqb _ c); now split.
Qed.

Lemma process_all_dry_run (files : list text) :
  forall (n : nat) (w : world) (n' : nat) (w' : world),
    process_all uni_alnum files true n w = Some (n', w') ->
    w_fs w' = w_fs w /\ w_writes w' = w_writes w.
Proof.
  induction files as [|f files IH]; intros n w n' w'; simpl.
  - intros H; injection H as <- <-. now split.
  - destruct (process_file uni_alnum f true w) as [p|] eqn:Hp; [|discriminate].
    intros H. apply IH in H. apply process_file_dry_run in Hp.
    simpl in H. destruct H, Hp. split; congruence.
Qed.

End ProcessFile.

(** ** Files without a console call *)

(** C4: a file whose text holds neither [System.out] nor [System.err] is
    left as it is: the file system after [process_file] is the one before,
    nothing is written, the call returns [False], and the loop of [main]
    does not count the file as updated. *)
Theorem irrelevant_file_untouched (uni_alnum : char -> bool) (w : world)
  (file_path content : text) (dry_run : bool) (rest : list text) (n : nat) :
  w_fs w file_path = Some content ->
  contains (str "System.out") content = false ->
  contains (str "System.err") content = false ->
  exists p,
    process_file uni_alnum file_path dry_run w = Some p
    /\ w_fs (p_world p) = w_fs w
    /\ w_fs (p_world p) file_path = Some content
    /\ w_writes (p_world p) = w_writes w
    /\ p_result p = false
    /\ process_all uni_alnum (file_path :: rest) dry_run n w
       = process_all uni_alnum rest dry_run n (say MsgBlank (p_world p)).
Proof.
  intros Hfs Hout Herr.
  assert (Hp : process_file uni_alnum file_path dry_run w
               = Some (process_file_outcome uni_alnum file_path dry_run w content))
    by (rewrite process_file_eq, Hfs; reflexivity).
  eexists. split; [exact Hp|].
  cbn [process_all]. rewrite Hp.
  unfold process_file_outcome, is_relevant. rewrite Hout, Herr.
  cbn [negb andb p_content p_result p_world w_fs w_console w_writes]. auto.
Qed.

Lemma irrelevant_file_untouched_witness :
  exists p,
    process_file ascii_only (str "./A.java") false
      (fresh_world (single_file (str "./A.java") (str "class A {}"))) = Some p
    /\ w_fs (p_world p) = single_file (str "./A.java") (str "class A {}")
    /\ w_fs (p_world p) (str "./A.java") = Some (str "class A {}")
    /\ w_writes (p_world p) = []
    /\ p_result p = false
    /\ process_all ascii_only [str "./A.java"] false 0
         (fresh_world (single_file (str "./A.java") (str "class A {}")))
       = process_all ascii_only [] false 0 (say MsgBlank (p_world p)).
Proof.
  apply (irrelevant_file_untouched ascii_only
           (fresh_world (single_file (str "./A.java") (str "class A {}")))
           (str "./A.java") false [] 0 (content := str "class A {}"));
    reflexivity.
Defined.

(** ** Preview mode *)

(** C7: in preview mode, a file that would change (it holds a marker and
    its transformed text differs from its text) keeps its content on disk:
    the file system after [process_file] is the one before and nothing is
    written, while the last line printed for the file says that it would be
    updated; and a whole run of [main] with the flag writes nothing. *)
Theorem preview_leaves_files (uni_alnum : char -> bool) (w : world)
  (file_path content : text) :
  w_fs w file_path = Some content ->
  is_relevant content = true ->
  transform uni_alnum content <> content ->
  (exists p,
     process_file uni_alnum file_path true w = Some p
     /\ w_fs (p_world p) = w_fs w
     /\ w_fs (p_world p) file_path = Some content
     /\ w_writes (p_world p) = w_writes w
     /\ p_result p = true
     /\ w_console (p_world p)
        = (w_console w ++ [MsgProcessing file_path]
           ++ step_messages uni_alnum content) ++ [MsgWouldUpdate])
  /\ (forall argv t w',
        existsb (text_eqb (str "--dry-run")) argv = true ->
        main uni_alnum argv t w = Some w' ->
        w_fs w' = w_fs w /\ w_writes w' = w_writes w).
Proof.
  intros Hfs Hrel Hne. split.
  - eexists. split; [rewrite process_file_eq, Hfs; reflexivity|].
    unfold process_file_outcome. rewrite Hrel. cbn [negb].
    apply text_eqb_neq in Hne. rewrite Hne.
    cbn [p_content p_result p_world w_fs w_console w_writes].
    rewrite <- !app_assoc. auto.
  - intros argv t w' Hflag. unfold main. rewrite Hflag.
    destruct (process_all _ _ _ _ _) as [[n w1]|] eqn:Hall; [|discriminate].
    intros H; injection H as <-.
    apply process_all_dry_run in Hall. cbn in *. exact Hall.
Qed.

(** ** The preview flag and the computed result *)

(** C9: the text [process_file] computes and the value it returns are the
    same with and without the preview flag, and so are the lines printed
    before the verdict; the flag decides only the write and the last line. *)
Theorem dry_run_noninterference (uni_alnum : char -> bool) (w : world)
  (file_path : text) :
  match process_file uni_alnum file_path true w,
        process_file uni_alnum file_path false w with
  | Some p1, Some p2 =>
      p_content p1 = p_content p2
      /\ p_result p1 = p_result p2
      /\ removelast (w_console (p_world p1)) = removelast (w_console (p_world p2))
      /\ w_fs (p_world p1) = w_fs w
      /\ (p_result p2 = false ->
          w_fs (p_world p2) = w_fs w /\ p_world p1 = p_world p2)
      /\ (p_result p2 = true ->
          w_fs (p_world p2) = fs_write (w_fs w) file_path (p_content p2)
          /\ last (w_console (p_world p1)) MsgBlank = MsgWouldUpdate
          /\ last (w_console (p_world p2)) MsgBlank = MsgUpdated)
  | None, None => w_fs w file_path = None
  | _, _ => False
  end.
Proof.
  rewrite !process_file_eq.
  destruct (w_fs w file_path) as [c|]; [|reflexivity].
  unfold process_file_outcome.
  destruct (negb (is_relevant c));
    [|destruct (text_eqb (transform uni_alnum c) c)];
    cbn [p_content p_result p_world w_fs w_console w_writes];
    rewrite ?removelast_last, ?last_last;
    repeat split; auto; discriminate.
Qed.

(** ** Discovery *)

Lemma dirtree_induction (P : dirtree -> Prop) :
  (forall subdirs files,
      Forall (fun nd => P (snd nd)) subdirs -> P (Dir subdirs files)) ->
  forall t, P t.
Proof.
  intros H. fix IH 1. intros [subdirs files]. apply H.
  induction subdirs as [|nd l IHl]; constructor; [apply IH|exact IHl].
Qed.

(** A text splits in one way only at the first occurrence of a character. *)
Lemma split_at_unique (c : char) (a a' b b' : text) :
  ~ In c a -> ~ In c a' -> a ++ c :: b = a' ++ c :: b' -> a = a' /\ b = b'.
Proof.
  revert a'; induction a as [|x a IH]; intros [|y a'] Ha Ha' H; simpl in *.
  - injection H as ->. auto.
  - injection H as -> _. tauto.
  - injection H as -> _. tauto.
  - injection H as -> H. apply IH in H; [|tauto|tauto].
    destruct H as [-> ->]. auto.
Qed.

Lemma is_name_spec (n : text) :
  is_name n = true -> n <> [] /\ ~ In SLASH n.
Proof.
  unfold is_name. rewrite andb_true_iff, !negb_true_iff. intros [Hn Hs]. split.
  - intros ->. discriminate.
  - intros Hin. assert (H : existsb (N.eqb SLASH) n = true).
    { apply existsb_exists. exists SLASH. split; [exact Hin|apply N.eqb_refl]. }
    congruence.
Qed.

Lemma path_join_name (r n : text) :
  good_root r = true -> is_name n = true -> path_join r n = r ++ SLASH :: n.
Proof.
  unfold good_root. rewrite andb_true_iff, !negb_true_iff. intros [Hr He] Hn.
  apply is_name_spec in Hn as [Hne Hns]. unfold path_join.
  change (str "/") with [SLASH] in *.
  destruct n as [|x n]; [congruence|].
  cbn [starts_with].
  replace (N.eqb SLASH x) with false.
  - cbn [andb app]. rewrite Hr, He. reflexivity.
  - symmetry. apply N.eqb_neq. intros <-. apply Hns. now left.
Qed.

Lemma good_root_join (r n : text) :
  is_name n = true -> good_root (r ++ SLASH :: n) = true.
Proof.
  intros Hn. apply is_name_spec in Hn as [Hne Hns].
  unfold good_root. apply andb_true_iff. split; apply negb_true_iff.
  - destruct r; reflexivity.
  - unfold ends_with. change (str "/") with [SLASH].
    rewrite rev_app_distr. cbn [rev].
    destruct (rev n) as [|x l] eqn:Hrev.
    { apply (f_equal (@rev char)) in Hrev. rewrite rev_involutive in Hrev.
      now subst. }
    cbn [app starts_with]. replace (N.eqb SLASH x) with false; [reflexivity|].
    symmetry. apply N.eqb_neq. intros <-. apply Hns.
    apply in_rev. rewrite Hrev. now left.
Qed.

Lemma contains_app_r (m r z : text) :
  contains m r = true -> contains m (r ++ z) = true.
Proof.
  rewrite !contains_spec. intros (a & b & ->). exists a, (b ++ z).
  now rewrite <- !app_assoc.
Qed.

(** Every directory below [top] has a path that extends the path of [top]. *)
Lemma directories_below (t : dirtree) :
  forall top r d,
    good_root top = true -> names_ok t = true ->
    In (r, d) (directories top t) ->
    good_root r = true /\ names_ok d = true /\ exists z, r = top ++ z.
Proof.
  induction t as [subdirs files IH] using dirtree_induction.
  intros top r d Htop Hok Hin. cbn [directories] in Hin.
  destruct Hin as [Heq|Hin].
  { injection Heq as <- <-. repeat split; auto. exists []. now rewrite app_nil_r. }
  cbn [names_ok] in Hok. apply andb_true_iff in Hok as [_ Hok].
  induction subdirs as [|[name sub] subdirs IHl]; [contradiction|].
  apply andb_true_iff in Hok as [Hok Hrest].
  apply andb_true_iff in Hok as [Hname Hsub].
  inversion IH as [|? ? Hhead Htail]; subst.
  apply in_app_or in Hin as [Hin|Hin].
  - rewrite path_join_name in Hin by assumption.
    apply Hhead in Hin; [|now apply good_root_join|exact Hsub].
    destruct Hin as (Hg & Hn & z & ->). repeat split; auto.
    exists (SLASH :: name ++ z). now rewrite <- app_assoc.
  - now apply IHl.
Qed.

Lemma walk_directories (t : dirtree) :
  forall top, walk top t
  = map (fun rd => (fst rd, dir_names (snd rd), dir_files (snd rd)))
        (directories top t).
Proof.
  induction t as [subdirs files IH] using dirtree_induction.
  intros top. cbn [walk directories map fst snd dir_names dir_files]. f_equal.
  induction subdirs as [|[name sub] subdirs IHl]; [reflexivity|].
  inversion IH as [|? ? Hhead Htail]; subst.
  rewrite map_app, <- IHl by assumption. f_equal. apply Hhead.
Qed.

(** A collected path comes from a directory that passed the test. *)
Lemma java_files_origin (t : dirtree) (f : text) :
  In f (java_files t) ->
  exists r d n,
    In (r, d) (directories (str ".") t) /\ is_excluded r = false
    /\ In n (dir_files d) /\ ends_with (str ".java") n = true
    /\ f = path_join r n.
Proof.
  unfold java_files. rewrite walk_directories, flat_map_concat_map, map_map.
  rewrite <- flat_map_concat_map. intros Hin.
  apply in_flat_map in Hin as ([r d] & Hrd & Hin). cbn [fst snd collect_dir] in Hin.
  fold (is_excluded r) in Hin. destruct (is_excluded r) eqn:He; [contradiction|].
  apply in_map_iff in Hin as (n & <- & Hn). apply filter_In in Hn as [Hn Hj].
  exists r, d, n. auto.
Qed.

Lemma names_ok_files (d : dirtree) (n : text) :
  names_ok d = true -> In n (dir_files d) -> is_name n = true.
Proof.
  destruct d as [subdirs files]. cbn [names_ok dir_files].
  intros H Hin. apply andb_true_iff in H as [H _].
  rewrite forallb_forall in H. now apply H.
Qed.

Lemma join_unique (r r' n n' : text) :
  is_name n = true -> is_name n' = true ->
  r ++ SLASH :: n = r' ++ SLASH :: n' -> r = r'.
Proof.
  intros Hn Hn' H.
  apply is_name_spec in Hn as [_ Hn]. apply is_name_spec in Hn' as [_ Hn'].
  apply (f_equal (@rev char)) in H. rewrite !rev_app_distr in H.
  cbn [rev] in H. rewrite <- !app_assoc in H. cbn [app] in H.
  apply split_at_unique in H as [_ H].
  - apply (f_equal (@rev char)) in H. now rewrite !rev_involutive in H.
  - now rewrite <- in_rev.
  - now rewrite <- in_rev.
Qed.

Lemma is_excluded_app (r z : text) :
  is_excluded r = true -> is_excluded (r ++ z) = true.
Proof.
  unfold is_excluded. rewrite !orb_true_iff.
  intros [H|H]; [left|right]; now apply contains_app_r.
Qed.

(** No path below an excluded directory is collected. *)
Lemma excluded_not_in_java_files (t : dirtree) (root : text) (d : dirtree)
  (f : text) :
  names_ok t = true -> In (root, d) (directories (str ".") t) ->
  is_excluded root = true -> In f (files_under root d) ->
  ~ In f (java_files t).
Proof.
  intros Hok Hroot Hex Hf Hjava.
  apply directories_below in Hroot as (Hgood & Hokd & _); [|reflexivity|exact Hok].
  unfold files_under in Hf. apply in_flat_map in Hf as ([r' d'] & Hin & Hf).
  cbn [fst snd] in Hf. apply in_map_iff in Hf as (n & <- & Hn).
  apply directories_below in Hin as (Hgood' & Hokd' & z & ->); auto.
  apply java_files_origin in Hjava as (r2 & d2 & n2 & Hin2 & Hex2 & Hn2 & _ & Heq).
  apply directories_below in Hin2 as (Hgood2 & Hokd2 & _); [|reflexivity|exact Hok].
  rewrite !path_join_name in Heq; eauto using names_ok_files.
  apply join_unique in Heq; eauto using names_ok_files.
  rewrite <- Heq, is_excluded_app in Hex2 by assumption. discriminate.
Qed.

(** The files [main] touches are the collected ones. *)
Lemma step_messages_not_processing (uni_alnum : char -> bool) (c q : text) :
  ~ In (MsgProcessing q) (step_messages uni_alnum c).
Proof.
  unfold step_messages. intros H. apply in_app_or in H as [H|H].
  - destruct (negb (has_slf4j_import c)); simpl in H; intuition discriminate.
  - destruct (get_class_name _ _) as [cn|]; [|contradiction].
    destruct (_ && _); simpl in H; intuition discriminate.
Qed.

Lemma process_file_touches (uni_alnum : char -> bool) (path : text)
  (dry_run : bool) (w : world) (p : processed) :
  process_file uni_alnum path dry_run w = Some p ->
  (forall q, In (MsgProcessing q) (w_console (p_world p)) ->
             In (MsgProcessing q) (w_console w) \/ q = path)
  /\ (forall q, In q (map fst (w_writes (p_world p))) ->
                In q (map fst (w_writes w)) \/ q = path).
Proof.
  rewrite process_file_eq. destruct (w_fs w path) as [c|]; [|discriminate].
  intros H; injection H as <-. unfold process_file_outcome.
  assert (Hc : forall q last,
             last <> MsgProcessing q ->
             In (MsgProcessing q)
                (((w_console w ++ [MsgProcessing path])
                  ++ step_messages uni_alnum c) ++ [last]) ->
             In (MsgProcessing q) (w_console w) \/ q = path).
  { intros q l Hl Hin. rewrite !in_app_iff in Hin.
    destruct Hin as [[[Hin|Hin]|Hin]|Hin]; auto.
    - destruct Hin as [Hin|[]]. injection Hin as ->. auto.
    - now apply step_messages_not_processing in Hin.
    - destruct Hin as [Hin|[]]. congruence. }
  destruct (negb (is_relevant c));
    [|destruct (text_eqb _ c); [|destruct dry_run]];
    cbn [p_world w_console w_writes]; split; auto;
    try (intros q Hin; eapply Hc; [|exact Hin]; discriminate).
  - intros q Hin. rewrite !in_app_iff in Hin.
    destruct Hin as [[Hin|Hin]|Hin]; auto.
    + destruct Hin as [Hin|[]]. injection Hin as ->. auto.
    + destruct Hin as [Hin|[]]. discriminate.
  - intros q Hin. rewrite map_app, in_app_iff in Hin.
    destruct Hin as [Hin|[Hin|[]]]; auto.
Qed.

Lemma process_all_touches (uni_alnum : char -> bool) (files : list text)
  (dry_run : bool) :
  forall n w n' w',
    process_all uni_alnum files dry_run n w = Some (n', w') ->
    (forall q, In (MsgProcessing q) (w_console w') ->
               In (MsgProcessing q) (w_console w) \/ In q files)
    /\ (forall q, In q (map fst (w_writes w')) ->
                  In q (map fst (w_writes w)) \/ In q files).
Proof.
  induction files as [|f files IH]; intros n w n' w'; cbn [process_all].
  - intros H; injection H as <- <-. auto.
  - destruct (process_file uni_alnum f dry_run w) as [p|] eqn:Hp; [|discriminate].
    intros H. apply IH in H as [Hc Hw].
    apply process_file_touches in Hp as [Hc1 Hw1].
    cbn [say w_console w_writes In] in *. split; intros q Hin.
    + apply Hc in Hin as [Hin|Hin]; [|auto].
      apply in_app_or in Hin as [Hin|[Hin|[]]]; [|discriminate].
      apply Hc1 in Hin as [Hin| ->]; auto.
    + apply Hw in Hin as [Hin|Hin]; [|auto].
      apply Hw1 in Hin as [Hin| ->]; auto.
Qed.

Lemma main_touches (uni_alnum : char -> bool) (argv : list text) (t : dirtree)
  (w w' : world) :
  main uni_alnum argv t w = Some w' ->
  (forall q, In (MsgProcessing q) (w_console w') ->
             In (MsgProcessing q) (w_console w) \/ In q (java_files t))
  /\ (forall q, In q (map fst (w_writes w')) ->
                In q (map fst (w_writes w)) \/ In q (java_files t)).
Proof.
  unfold main.
  destruct (process_all _ _ _ _ _) as [[n w1]|] eqn:Hall; [|discriminate].
  intros H; injection H as <-.
  apply process_all_touches in Hall as [Hc Hw].
  split; intros q Hin.
  - assert (Hin1 : In (MsgProcessing q) (w_console w1)).
    { destruct (existsb _ argv); cbn [say w_console] in Hin;
        rewrite ?in_app_iff in Hin; cbn [In] in Hin;
        intuition discriminate. }
    apply Hc in Hin1 as [Hin1|Hin1]; auto. left.
    destruct (existsb _ argv); cbn [say w_console] in Hin1;
      rewrite ?in_app_iff in Hin1; cbn [In] in Hin1; intuition discriminate.
  - assert (Hin1 : In q (map fst (w_writes w1))).
    { destruct (existsb _ argv); exact Hin. }
    apply Hw in Hin1 as [Hin1|Hin1]; auto. left.
    destruct (existsb _ argv); exact Hin1.
Qed.

(** C8: no file that lies under a directory whose path holds [target] or
    [.git] is collected by the walk of [main], whatever the directory holds,
    and [main] neither processes nor writes such a file. *)
Theorem excluded_directories_skipped (uni_alnum : char -> bool) (t : dirtree)
  (root : text) (d : dirtree) (f : text) :
  names_ok t = true ->
  In (root, d) (directories (str ".") t) ->
  contains (str "target") root || contains (str ".git") root = true ->
  In f (files_under root d) ->
  ~ In f (java_files t)
  /\ forall argv w w',
      main uni_alnum argv t w = Some w' ->
      (~ In (MsgProcessing f) (w_console w) ->
       ~ In (MsgProcessing f) (w_console w'))
      /\ (~ In f (map fst (w_writes w)) -> ~ In f (map fst (w_writes w'))).
Proof.
  intros Hok Hroot Hex Hf.
  assert (Hnot : ~ In f (java_files t))
    by (eapply excluded_not_in_java_files; eassumption).
  split; [exact Hnot|].
  intros argv w w' Hmain. apply main_touches in Hmain as [Hc Hw].
  split; intros Hbefore Hafter.
  - apply Hc in Hafter. tauto.
  - apply Hw in Hafter. tauto.
Qed.

(** ** Import insertion *)

(** Every match of [finditer] is a piece of the text, at the position the
    match object records, and it belongs to the expression. *)
Lemma finditer_from_sound (r : regex) (s : text) :
  forall pos skip m,
    In m (finditer_from r s pos skip) ->
    exists a b, s = a ++ mo_text m ++ b /\ mo_start m = pos + length a
                /\ matches r (mo_text m) [] (mo_caps m).
Proof.
  assert (Hshift : forall (c : char) s' pos m,
             (exists a b, s' = a ++ mo_text m ++ b
                          /\ mo_start m = S pos + length a
                          /\ matches r (mo_text m) [] (mo_caps m)) ->
             exists a b, c :: s' = a ++ mo_text m ++ b
                         /\ mo_start m = pos + length a
                         /\ matches r (mo_text m) [] (mo_caps m)).
  { intros c s' pos m (a & b & -> & Hs & Hm).
    exists (c :: a), b. cbn [app length]. repeat split; auto. lia. }
  induction s as [|c s IH]; intros pos skip m; cbn [finditer_from].
  - destruct skip; [|contradiction].
    destruct (match_here r []) as [res|] eqn:Hres; [|contradiction].
    intros [<-|[]]. apply match_here_sound in Hres as [Hs Hm].
    exists [], (m_rest res). cbn. repeat split; auto.
  - destruct skip as [|k].
    + destruct (match_here r (c :: s)) as [res|] eqn:Hres.
      * intros [<-|Hin].
        -- apply match_here_sound in Hres as [Hs Hm].
           exists [], (m_rest res). cbn. repeat split; auto.
        -- apply Hshift. eapply IH. exact Hin.
      * intros Hin. apply Hshift. eapply IH. exact Hin.
    + intros Hin. apply Hshift. eapply IH. exact Hin.
Qed.

(** The matches of [finditer] come in the order of the text. *)
Section FinditerOrder.
Variable r : regex.
Hypothesis match_nonempty :
  forall s res, match_here r s = Some res -> m_text res <> [].




End FinditerOrder.

Lemma insert_at_app (a piece b : text) :
  insert_at (length a) piece (a ++ b) = a ++ piece ++ b.
Proof.
  unfold insert_at. induction a as [|x a IH]; cbn [length app firstn skipn].
  - reflexivity.
  - now rewrite IH.
Qed.

Lemma last_map_some (A : Type) (l : list A) (x : A) :
  last (map Some (l ++ [x])) None = Some x.
Proof. rewrite map_app. cbn [map]. apply last_last. Qed.



(** ** Substitution *)

Lemma sub_from_skip (r : regex) (t : template) (m rest : text) :
  sub_from r t (m ++ rest) (length m) = sub_from r t rest 0.
Proof. induction m as [|c m IH]; [reflexivity | exact IH]. Qed.

(** A match at the head is replaced, and the scan goes on after it. *)
Lemma sub_match (r : regex) (t : template) (s : text) (res : rmatch_result) :
  match_here r s = Some res -> m_text res <> [] ->
  sub r t s = expand t (m_caps res) ++ sub r t (m_rest res).
Proof.
  intros Hres Hne. destruct (match_here_sound _ _ Hres) as [Hs _].
  unfold sub. destruct s as [|c s].
  { destruct (m_text res); [congruence|discriminate]. }
  cbn [sub_from]. rewrite Hres. f_equal.
  destruct (m_text res) as [|x m]; [congruence|].
  cbn [length]. injection Hs as _ ->. apply sub_from_skip.
Qed.

(** Where nothing matches, the character is copied. *)
Lemma sub_nomatch (r : regex) (t : template) (c : char) (s : text) :
  match_here r (c :: s) = None -> sub r t (c :: s) = c :: sub r t s.
Proof. intros H. unfold sub. cbn [sub_from]. now rewrite H. Qed.

(** The shape of the matches of the three call patterns. *)
Lemma pattern_literal_shape (stream m : text) (cs : captures) :
  matches (pattern_literal stream) m [] cs ->
  exists g, m = (println_open stream ++ [QUOTE]) ++ g ++ [QUOTE] ++ str ");"
            /\ g <> [] /\ Forall (fun c => not_quote c = true) g
            /\ cs = [(1, g)].
Proof.
  unfold pattern_literal. cbn [rseq]. intros H. invert_matches.
  eexists. repeat split; [discriminate | now constructor].
Qed.

Lemma pattern_concat_shape (stream m : text) (cs : captures) :
  matches (pattern_concat stream) m [] cs ->
  exists g1 w1 w2 w3 g2,
    m = (println_open stream ++ [QUOTE]) ++ g1 ++ str ":" ++ w1 ++ [QUOTE]
        ++ w2 ++ str "+" ++ w3 ++ g2 ++ str ");"
    /\ g1 <> [] /\ Forall (fun c => not_quote c = true) g1
    /\ Forall (fun c => is_space c = true) w1
    /\ Forall (fun c => is_space c = true) w2
    /\ Forall (fun c => is_space c = true) w3
    /\ g2 <> [] /\ Forall (fun c => not_rparen c = true) g2
    /\ cs = [(2, g2); (1, g1)].
Proof.
  unfold pattern_concat. cbn [rseq]. intros H. invert_matches.
  do 5 eexists.
  repeat split; try eassumption; try discriminate; now constructor.
Qed.

Lemma pattern_variable_shape (stream m : text) (cs : captures) :
  matches (pattern_variable stream) m [] cs ->
  exists g, m = println_open stream ++ g ++ str ");"
            /\ g <> [] /\ Forall (fun c => not_quote c = true) g
            /\ cs = [(1, g)].
Proof.
  unfold pattern_variable. cbn [rseq]. intros H. invert_matches.
  eexists. repeat split; [discriminate | now constructor].
Qed.

(** *** Occurrences of a word across a substitution *)

Lemma occurs_contains (w s : text) : occurs w s <-> contains w s = true.
Proof. symmetry. apply contains_spec. Qed.

Lemma occurs_here (w b : text) : occurs w (w ++ b).
Proof. now exists [], b. Qed.

Lemma occurs_app_l (w a s : text) : occurs w s -> occurs w (a ++ s).
Proof. intros (x & y & ->). exists (a ++ x), y. now rewrite <- app_assoc. Qed.

Lemma occurs_app_r (w s b : text) : occurs w s -> occurs w (s ++ b).
Proof.
  intros (x & y & ->). exists x, (y ++ b). now rewrite <- !app_assoc.
Qed.


(** Two ways to cut a text: one cut is at or after the other. *)
Lemma app_cut (a b c d : text) :
  a ++ b = c ++ d ->
  (exists z, c = a ++ z /\ b = z ++ d) \/
  (exists z, z <> [] /\ a = c ++ z /\ d = z ++ b).
Proof.
  revert c; induction a as [|x a IH]; intros c H; cbn [app] in H.
  - left. exists c. auto.
  - destruct c as [|y c]; cbn [app] in H.
    + right. exists (x :: a). subst d. repeat split; auto. discriminate.
    + injection H as -> H. apply IH in H as [(z & -> & ->)|(z & Hz & -> & ->)].
      * left. now exists z.
      * right. now exists z.
Qed.

Section SubKeeps.
Variables (r : regex) (t : template).

(** The expression matches no empty text. *)
Hypothesis match_nonempty :
  forall s res, match_here r s = Some res -> m_text res <> [].

(** Where no match starts inside [w], [w] is copied. *)
Lemma sub_copies (w tail : text) :
  (forall u v, w = u ++ v -> v <> [] -> match_here r (v ++ tail) = None) ->
  sub r t (w ++ tail) = w ++ sub r t tail.
Proof.
  induction w as [|c w IH]; intros H; [reflexivity|].
  cbn [app]. rewrite sub_nomatch.
  - f_equal. apply IH. intros u v -> Hv. apply (H (c :: u) v); auto.
  - apply (H [] (c :: w)); [reflexivity|discriminate].
Qed.

End SubKeeps.

(** *** The call patterns *)

Lemma call_pattern_head (stream : text) (r : regex) (m : text) (cs : captures) :
  call_pattern stream r -> matches r m [] cs -> exists m', m = CAPITAL_S :: m'.
Proof.
  intros [ -> | [ -> | -> ] ] H.
  - apply pattern_literal_shape in H as (g & -> & _). eexists. reflexivity.
  - apply pattern_concat_shape in H as (g1 & w1 & w2 & w3 & g2 & -> & _).
    eexists. reflexivity.
  - apply pattern_variable_shape in H as (g & -> & _). eexists. reflexivity.
Qed.

Lemma call_pattern_nonempty (stream : text) (r : regex) :
  call_pattern stream r ->
  forall s res, match_here r s = Some res -> m_text res <> [].
Proof.
  intros Hr s res Hres. apply match_here_sound in Hres as [_ Hm].
  destruct (call_pattern_head Hr Hm) as [m' ->]. discriminate.
Qed.




(** *** Words that a substitution keeps *)



Section SubKeepsWord.
Variables (r : regex) (t : template) (w : text).

Hypothesis match_nonempty :
  forall s res, match_here r s = Some res -> m_text res <> [].

(** No match starts inside [w]. *)
Hypothesis none_inside :
  forall u v tail, w = u ++ v -> v <> [] -> match_here r (v ++ tail) = None.

(** A match that starts before [w] and reaches into it either holds [w]
    in its replacement, or its replacement ends with the part of the
    match that lies in [w]. *)
Hypothesis reach :
  forall pre x tail res,
    pre <> [] -> x <> [] ->
    match_here r (pre ++ w ++ tail) = Some res ->
    m_text res = pre ++ x -> w ++ tail = x ++ m_rest res ->
    occurs w (expand t (m_caps res))
    \/ exists e, expand t (m_caps res) = e ++ x.

End SubKeepsWord.

(** *** What a match of a call pattern keeps *)












Lemma existsb_eqb_false (c : char) (w : text) :
  existsb (N.eqb c) w = false -> ~ In c w.
Proof.
  intros H Hin. assert (Ht : existsb (N.eqb c) w = true).
  { apply existsb_exists. exists c. split; [exact Hin|apply N.eqb_refl]. }
  congruence.
Qed.




(** *** The literal pattern rewrites the sample call *)




(** ** The two insertions *)

Lemma search_from_sound (r : regex) (s : text) :
  forall pos m,
    search_from r s pos = Some m ->
    exists a b, s = a ++ mo_text m ++ b /\ mo_start m = pos + length a
                /\ matches r (mo_text m) [] (mo_caps m).
Proof.
  induction s as [|c s IH]; intros pos m; cbn [search_from].
  - destruct (match_here r []) as [res|] eqn:Hres; [|discriminate].
    intros H; injection H as <-. apply match_here_sound in Hres as [Hs Hm].
    exists [], (m_rest res). cbn. repeat split; auto.
  - destruct (match_here r (c :: s)) as [res|] eqn:Hres.
    + intros H; injection H as <-. apply match_here_sound in Hres as [Hs Hm].
      exists [], (m_rest res). cbn. repeat split; auto.
    + intros H. apply IH in H as (a & b & -> & Hstart & Hm).
      exists (c :: a), b. cbn [app length]. repeat split; auto. lia.
Qed.

Lemma search_sound (r : regex) (s : text) (m : match_obj) :
  search r s = Some m ->
  exists a b, s = a ++ mo_text m ++ b /\ mo_start m = length a
              /\ matches r (mo_text m) [] (mo_caps m).
Proof. apply search_from_sound. Qed.

(** An import statement ends with a semicolon, a class opening with a
    brace, and it holds the name of the class. *)
Lemma import_pattern_shape (uni_alnum : char -> bool) (m : text)
  (cs cs' : captures) :
  matches (import_pattern uni_alnum) m cs cs' -> exists m', m = m' ++ str ";".
Proof.
  unfold import_pattern. cbn [rseq]. intros H. invert_matches.
  eexists. rewrite !app_assoc. reflexivity.
Qed.

Lemma class_pattern_shape (class_name m : text) (cs cs' : captures) :
  matches (class_pattern class_name) m cs cs' ->
  exists m', m = m' ++ [LBRACE] /\ occurs class_name m'.
Proof.
  unfold class_pattern. cbn [rseq]. intros H.
  inversion H as [| | |? ? m1 m2 ? ? ? Hopt Hrest| | |]; subst. clear H Hopt.
  invert_matches.
  match goal with
  | |- exists m', m1 ++ ?a ++ ?b ++ ?c ++ ?d ++ ?n ++ ?e ++ _ = _ /\ occurs ?n _ =>
      exists (m1 ++ a ++ b ++ c ++ d ++ n ++ e); split;
      [ | exists (m1 ++ a ++ b ++ c ++ d), e ]
  end.
  - now rewrite <- !app_assoc.
  - now rewrite <- !app_assoc.
Qed.

Lemma class_name_shape (uni_alnum : char -> bool) (content cn : text) :
  get_class_name uni_alnum content = Some cn ->
  cn <> [] /\ Forall (fun c => is_word uni_alnum c = true) cn.
Proof.
  unfold get_class_name.
  destruct (search _ content) as [m|] eqn:Hs; [|discriminate].
  apply search_sound in Hs as (_ & _ & _ & _ & Hm).
  unfold class_name_pattern in Hm. cbn [rseq] in Hm. invert_matches.
  cbn [group Nat.eqb]. intros H; injection H as <-.
  split; [discriminate|now constructor].
Qed.

(** The two steps, by cases. *)
Lemma import_step_cases (uni_alnum : char -> bool) (content : text) :
  import_step uni_alnum content = content
  \/ exists a b,
      content = (a ++ str ";") ++ b
      /\ has_slf4j_import content = false
      /\ import_step uni_alnum content = (a ++ str ";") ++ slf4j_imports ++ b.
Proof.
  unfold import_step. destruct (has_slf4j_import content) eqn:Hmark; [now left|].
  cbn [negb]. unfold add_slf4j_import.
  destruct (finditer (import_pattern uni_alnum) content) as [|x l] eqn:Hfind;
    [now left|].
  destruct (@exists_last _ (x :: l)) as (ms & m0 & Hlast); [discriminate|].
  rewrite Hlast in *. clear x l Hlast.
  rewrite last_map_some. right.
  assert (Hin : In m0 (finditer (import_pattern uni_alnum) content))
    by (rewrite Hfind; apply in_or_app; right; now left).
  apply finditer_from_sound in Hin as (a & b & Hs & Hstart & Hm).
  apply import_pattern_shape in Hm as (m' & Hm').
  assert (Hc : content = ((a ++ m') ++ str ";") ++ b)
    by (rewrite Hs, Hm', <- !app_assoc; reflexivity).
  exists (a ++ m'), b. repeat split; [exact Hc|].
  unfold mo_end.
  replace (mo_start m0 + length (mo_text m0))
    with (length ((a ++ m') ++ str ";"))
    by (rewrite Hstart, Hm', !length_app; lia).
  rewrite Hc at 1. apply insert_at_app.
Qed.

Lemma logger_step_cases (uni_alnum : char -> bool) (content : text) :
  logger_step uni_alnum content = content
  \/ exists a b cn,
      content = (a ++ [LBRACE]) ++ b
      /\ get_class_name uni_alnum content = Some cn
      /\ has_logger_declaration content = false
      /\ occurs cn a
      /\ logger_step uni_alnum content
         = (a ++ [LBRACE]) ++ logger_declaration cn ++ b.
Proof.
  unfold logger_step.
  destruct (get_class_name uni_alnum content) as [cn|] eqn:Hcn; [|now left].
  destruct (has_logger_declaration content) eqn:Hdecl;
    [rewrite andb_false_r; now left|].
  destruct (negb (text_eqb cn [])); [|now left]. cbn [negb andb].
  unfold add_logger_declaration.
  destruct (search (class_pattern cn) content) as [m|] eqn:Hs; [|now left].
  right. apply search_sound in Hs as (a & b & Hc & Hstart & Hm).
  apply class_pattern_shape in Hm as (m' & Hm' & Hocc).
  assert (Hc' : content = ((a ++ m') ++ [LBRACE]) ++ b)
    by (rewrite Hc, Hm', <- !app_assoc; reflexivity).
  exists (a ++ m'), b, cn. repeat split; [exact Hc'|now apply occurs_app_l|].
  unfold mo_end.
  replace (mo_start m + length (mo_text m))
    with (length ((a ++ m') ++ [LBRACE]))
    by (rewrite Hstart, Hm', !length_app; lia).
  rewrite Hc' at 1. apply insert_at_app.
Qed.





(** ** Severity of the rewritten calls *)


Lemma println_patterns_fixed (stream level : text) (r : regex) (t : template)
  (s : text) (res : rmatch_result) :
  In (r, t) (println_patterns stream level) ->
  match_here r s = Some res ->
  (exists args, m_text res = println_open stream ++ args)
  /\ (exists args, expand t (m_caps res) = log_open level ++ args).
Proof.
  intros Hin Hres. apply match_here_sound in Hres as [_ Hm].
  cbn [println_patterns In] in Hin.
  destruct Hin as [H|[H|[H|[]]]]; injection H as <- <-.
  - apply pattern_literal_shape in Hm as (g & -> & _ & _ & ->).
    cbn [template_literal expand group Nat.eqb].
    split; [exists ([QUOTE] ++ g ++ [QUOTE] ++ str ");")
           |exists ([QUOTE] ++ g ++ ([QUOTE] ++ str ");") ++ [])];
      now rewrite <- app_assoc.
  - apply pattern_concat_shape in Hm
      as (g1 & w1 & w2 & w3 & g2 & -> & _ & _ & _ & _ & _ & _ & _ & ->).
    cbn [template_concat expand group Nat.eqb].
    split; [exists ([QUOTE] ++ g1 ++ str ":" ++ w1 ++ [QUOTE] ++ w2 ++ str "+"
                     ++ w3 ++ g2 ++ str ");")
           |exists ([QUOTE] ++ g1 ++ (str ": {}" ++ [QUOTE] ++ str ", ") ++ g2
                     ++ str ");" ++ [])];
      now rewrite <- app_assoc.
  - apply pattern_variable_shape in Hm as (g & -> & _ & _ & ->).
    cbn [template_variable expand group Nat.eqb].
    split; [exists (g ++ str ");")
           |exists (([QUOTE] ++ str "{}" ++ [QUOTE] ++ str ",") ++ g
                     ++ str ");" ++ [])];
      [reflexivity|now rewrite <- app_assoc].
Qed.



(** ** The first console call of a file *)

Lemma call_pattern_opening (stream : text) (r : regex) (m : text)
  (cs : captures) :
  call_pattern stream r -> matches r m [] cs ->
  exists m', m = println_open stream ++ m'.
Proof.
  intros [ -> | [ -> | -> ] ] H.
  - apply pattern_literal_shape in H as (g & -> & _).
    eexists. rewrite <- app_assoc. reflexivity.
  - apply pattern_concat_shape in H as (g1 & w1 & w2 & w3 & g2 & -> & _).
    eexists. rewrite <- app_assoc. reflexivity.
  - apply pattern_variable_shape in H as (g & -> & _). eexists. reflexivity.
Qed.

(** No match starts in a text without the marker of the stream, when the
    character after the text is not one of the marker after its first. *)
Lemma no_match_before (stream : text) (r : regex) (pre : text) (c : char)
  (tail : text) :
  call_pattern stream r ->
  ~ occurs (marker stream) pre ->
  ~ In c (tl (marker stream)) ->
  forall u v, pre = u ++ v -> v <> [] -> match_here r (v ++ c :: tail) = None.
Proof.
  intros Hr Hfree Hc u v -> Hv.
  destruct (match_here r (v ++ c :: tail)) as [res|] eqn:Hres; [|reflexivity].
  exfalso. apply match_here_sound in Hres as [Hs Hm].
  destruct (call_pattern_opening Hr Hm) as [m' Hm'].
  rewrite Hm' in Hs. unfold println_open in Hs.
  rewrite app_assoc in Hs. fold (marker stream) in Hs.
  rewrite <- !app_assoc in Hs.
  apply app_cut in Hs as [(z & Hz & Hrest)|(z & Hz & -> & _)].
  - destruct z as [|y z].
    + apply Hfree. exists u, []. rewrite Hz. now rewrite !app_nil_r.
    + injection Hrest as -> _. apply Hc.
      destruct v as [|x v]; [congruence|].
      apply (f_equal (@tl char)) in Hz. cbn [tl app] in Hz.
      rewrite Hz. apply in_elt.
  - apply Hfree. now exists u, z.
Qed.

Lemma sub_copies_before (stream : text) (r : regex) (t : template)
  (pre : text) (c : char) (tail : text) :
  call_pattern stream r ->
  ~ occurs (marker stream) pre ->
  ~ In c (tl (marker stream)) ->
  sub r t (pre ++ c :: tail) = pre ++ sub r t (c :: tail).
Proof.
  intros Hr Hfree Hc. apply sub_copies. now apply (@no_match_before stream).
Qed.




(** *** The insertions put no console marker before the first call *)

Lemma occurs_nil (s : text) : occurs [] s.
Proof. now exists [], s. Qed.

(** A word without [c] that occurs around a [c] occurs on one side of it. *)
Lemma occurs_sep (c : char) (w a b : text) :
  ~ In c w -> occurs w (a ++ c :: b) -> occurs w a \/ occurs w b.
Proof.
  intros Hc (p & q & H).
  apply app_cut in H as [(z & -> & Hb)|(z & Hz & -> & Hw)].
  - destruct z as [|x z]; cbn [app] in Hb.
    + destruct w as [|y w]; [left; apply occurs_nil|].
      injection Hb as -> _. exfalso. apply Hc. now left.
    + injection Hb as _ ->. right. now exists z, q.
  - apply app_cut in Hw as [(y & -> & _)|(y & Hy & -> & Hq)].
    + left. now exists p, y.
    + exfalso. apply Hc. apply in_or_app. right.
      destruct y as [|x y]; [congruence|]. injection Hq as -> _. now left.
Qed.

Lemma not_occurs_by_test (w s : text) : contains w s = false -> ~ occurs w s.
Proof. intros H Hocc. apply occurs_contains in Hocc. congruence. Qed.












(** ** The matcher finds a match where there is one *)

Lemma greedy_complete (R : Type) (cls : char -> bool) (m rest : text)
  (cs : captures) (k : kont R) :
  Forall (fun c => cls c = true) m ->
  k m rest cs <> None -> greedy cls (m ++ rest) cs k <> None.
Proof.
  revert k; induction m as [|c m IH]; intros k Hm Hk.
  - cbn [app]. destruct rest as [|c rest]; cbn [greedy]; [exact Hk|].
    destruct (cls c); [|exact Hk].
    destruct (greedy cls rest cs _); [discriminate|exact Hk].
  - inversion Hm as [|? ? Hc Hm']; subst. cbn [app greedy]. rewrite Hc.
    destruct (greedy cls (m ++ rest) cs (fun m0 rest0 cs0 => k (c :: m0) rest0 cs0))
      eqn:Hg; [discriminate|].
    exfalso. revert Hg. apply IH; assumption.
Qed.

Lemma rmatch_complete (R : Type) (r : regex) (m : text) (cs cs' : captures) :
  matches r m cs cs' ->
  forall (rest : text) (k : kont R),
    k m rest cs' <> None -> rmatch r (m ++ rest) cs k <> None.
Proof.
  induction 1 as [w cs|cls c m cs Hc Hm|cls m cs Hm
                 |r1 r2 m1 m2 cs0 cs1 cs2 _ IH1 _ IH2
                 |r cs|r m cs cs' _ IH|n r m cs cs' _ IH];
    intros rest k Hk; cbn [rmatch].
  - now rewrite strip_prefix_app.
  - cbn [app]. rewrite Hc. now apply greedy_complete.
  - now apply greedy_complete.
  - rewrite <- app_assoc. apply IH1. apply IH2. exact Hk.
  - cbn [app]. destruct (rmatch r rest cs k); [discriminate|exact Hk].
  - destruct (rmatch r (m ++ rest) cs k) eqn:Hr; [discriminate|].
    exfalso. revert Hr. now apply IH.
  - apply IH. exact Hk.
Qed.

Lemma match_here_complete (r : regex) (m rest : text) (cs : captures) :
  matches r m [] cs -> match_here r (m ++ rest) <> None.
Proof.
  intros H. unfold match_here. eapply rmatch_complete; [exact H|discriminate].
Qed.

Lemma search_from_complete (r : regex) (a w b : text) :
  match_here r (w ++ b) <> None ->
  forall pos, search_from r (a ++ w ++ b) pos <> None.
Proof.
  intros Hw. induction a as [|c a IH]; intros pos.
  - cbn [app]. destruct (w ++ b) as [|x s] eqn:Hs; cbn [search_from].
    + destruct (match_here r []); congruence.
    + destruct (match_here r (x :: s)); congruence.
  - cbn [app search_from].
    destruct (match_here r (c :: a ++ w ++ b)); [discriminate|apply IH].
Qed.

(** [re.search] finds a match exactly when some piece of the text belongs
    to the expression. *)
Lemma search_complete (r : regex) (s w : text) (cs : captures) :
  matches r w [] cs -> occurs w s -> search r s <> None.
Proof.
  intros Hm (a & b & ->). apply search_from_complete.
  now apply (@match_here_complete r w b cs).
Qed.

Lemma has_logger_declaration_spec (content : text) :
  has_logger_declaration content = true
  <-> exists w cs, matches logger_decl_pattern w [] cs /\ occurs w content.
Proof.
  unfold has_logger_declaration. split.
  - destruct (search logger_decl_pattern content) as [m|] eqn:Hs; [|discriminate].
    intros _. apply search_sound in Hs as (a & b & Hc & _ & Hm).
    exists (mo_text m), (mo_caps m). split; [exact Hm|now exists a, b].
  - intros (w & cs & Hm & Hocc).
    destruct (search logger_decl_pattern content) eqn:Hs; [reflexivity|].
    exfalso. revert Hs. now apply (@search_complete _ _ w cs).
Qed.

(** ** Words that the call rewriter keeps *)



Lemma not_in_app (c : char) (a b : text) :
  ~ In c a -> ~ In c b -> ~ In c (a ++ b).
Proof. intros Ha Hb H. apply in_app_or in H. tauto. Qed.

Lemma not_in_cons (c x : char) (a : text) :
  c <> x -> ~ In c a -> ~ In c (x :: a).
Proof. intros Hx Ha [H|H]; [congruence|tauto]. Qed.

Lemma not_in_by_test (c : char) (a : text) :
  existsb (N.eqb c) a = false -> ~ In c a.
Proof. apply existsb_eqb_false. Qed.


(** No match starts inside a word that holds no marker and ends with a
    character foreign to the opening of a call. *)
Lemma none_inside_word (stream : text) (r : regex) (w w' : text) (c : char) :
  call_pattern stream r ->
  w = w' ++ [c] -> ~ In c (println_open stream) ->
  ~ occurs (marker stream) w ->
  forall u v tail, w = u ++ v -> v <> [] -> match_here r (v ++ tail) = None.
Proof.
  intros Hr Hw Hc Hfree u v tail Huv Hv.
  destruct (match_here r (v ++ tail)) as [res|] eqn:Hres; [|reflexivity].
  exfalso. apply match_here_sound in Hres as [Hs Hm].
  destruct (call_pattern_opening Hr Hm) as [m' Hm'].
  rewrite Hm', <- app_assoc in Hs.
  apply app_cut in Hs as [(z & Hz & _)|(z & Hz & -> & _)].
  - apply Hc. rewrite Hz. apply in_or_app. left.
    destruct (@exists_last _ v Hv) as (v' & l & ->).
    rewrite Hw, app_assoc in Huv. apply app_inj_tail in Huv as [_ ->].
    apply in_or_app. right. now left.
  - apply Hfree. rewrite Huv. unfold println_open. fold (marker stream).
    rewrite app_assoc. fold (marker stream).
    exists u, (str ".println(" ++ z). now rewrite <- !app_assoc.
Qed.




(** ** What the insertions put in *)

Lemma occurs_trans (u w s : text) : occurs u w -> occurs w s -> occurs u s.
Proof.
  intros (a & b & ->) (a' & b' & ->). exists (a' ++ a), (b ++ b').
  now rewrite <- !app_assoc.
Qed.



Lemma occurs_in_place (c : char) (a piece b : text) :
  occurs (c :: piece) ((a ++ [c]) ++ piece ++ b).
Proof. exists a, b. now rewrite <- !app_assoc. Qed.



(** ** The declaration occurs once *)


Lemma decl_text_matches : matches logger_decl_pattern decl_text [] [].
Proof.
  exact (proj2 (@match_here_sound logger_decl_pattern decl_text
                  (MkMatch decl_text [] []) eq_refl)).
Qed.

Lemma decl_text_in_declaration (cn : text) :
  occurs decl_text (logger_declaration cn).
Proof.
  exists ([NL; NL] ++ str "    "),
    (str " LoggerFactory.getLogger(" ++ cn ++ str ".class);").
  reflexivity.
Qed.

Lemma has_logger_declaration_occurs (cn s : text) :
  occurs (logger_declaration cn) s -> has_logger_declaration s = true.
Proof.
  intros Hocc. apply has_logger_declaration_spec.
  exists decl_text, []. split; [exact decl_text_matches|].
  eapply occurs_trans; [apply decl_text_in_declaration|exact Hocc].
Qed.



(** ** Files that only name a console stream *)


Lemma marker_in_imports : occurs SLF4J_MARKER imports_in_place.
Proof.
  exists [SEMICOLON; NL], (str ";" ++ [NL] ++ str "import org.slf4j.LoggerFactory;").
  reflexivity.
Qed.



(** ** Imports and declaration together *)



(** ** A second run *)






(** ** The script on sample inputs *)

Example variable_call_rewritten :
  rewrite_calls (str "System.out.println(result);")
  = str "log.info(" ++ quoted "{}" ++ str ",result);".
Proof. vm_compute. reflexivity. Qed.

Example value_call_alone_rewritten : rewrite_calls value_call = value_log.
Proof. vm_compute. reflexivity. Qed.

Example sample_java_transformed :
  transform ascii_only sample_java
  = str "import a.b;" ++ slf4j_imports ++ [NL]
    ++ str "public class Foo {" ++ logger_declaration (str "Foo") ++ [NL]
    ++ str "  void f() { " ++ hello_log ++ str " }" ++ [NL] ++ str "}" ++ [NL].
Proof. vm_compute. reflexivity. Qed.

Example sample_tree_walked :
  map (fun e => fst (fst e)) (walk (str ".") sample_tree)
  = [str "."; str "./target"; str "./target/classes"; str "./src"]
  /\ java_files sample_tree = [str "./D.java"; str "./src/C.java"].
Proof. vm_compute. split; reflexivity. Qed.

(** ** The theorems at sample inputs *)






Lemma preview_leaves_files_witness :
  exists p,
    process_file ascii_only (str "./A.java") true
      (fresh_world (single_file (str "./A.java") hello_call)) = Some p
    /\ w_fs (p_world p) = single_file (str "./A.java") hello_call
    /\ w_fs (p_world p) (str "./A.java") = Some hello_call
    /\ w_writes (p_world p) = []
    /\ p_result p = true
    /\ w_console (p_world p)
       = ([] ++ [MsgProcessing (str "./A.java")]
          ++ step_messages ascii_only hello_call) ++ [MsgWouldUpdate].
Proof.
  apply (preview_leaves_files ascii_only
           (fresh_world (single_file (str "./A.java") hello_call))
           (str "./A.java") (content := hello_call)).
  - reflexivity.
  - reflexivity.
  - vm_compute. discriminate.
Defined.

Lemma excluded_directories_skipped_witness :
  ~ In (str "./target/classes/A.java") (java_files sample_tree)
  /\ ~ In (str "./target/B.java") (java_files sample_tree).
Proof.
  split.
  - apply (excluded_directories_skipped ascii_only sample_tree
             (str "./target")
             (Dir [(str "classes", Dir [] [str "A.java"])] [str "B.java"])).
    + reflexivity.
    + right. left. reflexivity.
    + reflexivity.
    + right. left. reflexivity.
  - apply (excluded_directories_skipped ascii_only sample_tree
             (str "./target")
             (Dir [(str "classes", Dir [] [str "A.java"])] [str "B.java"])).
    + reflexivity.
    + right. left. reflexivity.
    + reflexivity.
    + left. reflexivity.
Defined.


(** * Further properties of the script *)

(** ** The guards make each insertion idempotent *)

(** X1: the guarded import insertion of [process_file] is idempotent on
    every text: once it has run, the marker import is there (or there is no
    import statement to insert after), and running it again changes
    nothing. *)
Theorem import_step_idempotent (uni_alnum : char -> bool) (content : text) :
  import_step uni_alnum (import_step uni_alnum content)
  = import_step uni_alnum content.
Proof.
  destruct (import_step_cases uni_alnum content) as [H|(a & b & _ & _ & H)].
  - now rewrite !H.
  - rewrite H. unfold import_step.
    replace (has_slf4j_import ((a ++ str ";") ++ slf4j_imports ++ b)) with true;
      [reflexivity|].
    symmetry. apply occurs_contains.
    eapply occurs_trans; [exact marker_in_imports|].
    apply (@occurs_in_place SEMICOLON).
Qed.

(** X2: the guarded insertion of the logger declaration is idempotent on
    every text: after an insertion the declaration pattern matches, so the
    step does nothing the second time, whatever class name is then found. *)
Theorem logger_step_idempotent (uni_alnum : char -> bool) (content : text) :
  logger_step uni_alnum (logger_step uni_alnum content)
  = logger_step uni_alnum content.
Proof.
  destruct (logger_step_cases uni_alnum content)
    as [H|(a & b & cn & _ & _ & _ & _ & H)].
  - now rewrite !H.
  - rewrite H. unfold logger_step.
    rewrite (@has_logger_declaration_occurs cn)
      by (apply occurs_app_l, occurs_here).
    destruct (get_class_name uni_alnum _); [|reflexivity].
    now rewrite andb_false_r.
Qed.

(** ** Without a marker nothing is rewritten *)

Lemma sub_without_marker (stream : text) (r : regex) (t : template) (s : text) :
  call_pattern stream r -> ~ occurs (marker stream) s -> sub r t s = s.
Proof.
  intros Hr Hfree.
  assert (Hnone : forall v, occurs v s -> match_here r v = None).
  { intros v Hv. destruct (match_here r v) as [res|] eqn:Hres; [|reflexivity].
    exfalso. apply Hfree. apply match_here_sound in Hres as [Hs Hm].
    destruct (call_pattern_opening Hr Hm) as [m' Hm'].
    eapply occurs_trans; [|exact Hv].
    rewrite Hs, Hm'. unfold println_open. fold (marker stream).
    rewrite app_assoc. fold (marker stream).
    exists [], (str ".println(" ++ m' ++ m_rest res).
    now rewrite <- !app_assoc. }
  rewrite <- (app_nil_r s) at 1. rewrite sub_copies.
  - unfold sub. cbn [sub_from]. rewrite (Hnone [] (occurs_nil s)).
    apply app_nil_r.
  - intros u v -> Hv. rewrite app_nil_r. apply Hnone.
    exists u, []. now rewrite app_nil_r.
Qed.

(** X3: [replace_system_out] changes only texts that hold [System.out],
    [replace_system_err] only texts that hold [System.err]; so the early
    return of [process_file] skips no file in which a call would have been
    rewritten. *)
Theorem rewriter_needs_marker (content : text) :
  (contains (str "System.out") content = false ->
   replace_system_out content = content)
  /\ (contains (str "System.err") content = false ->
      replace_system_err content = content)
  /\ (is_relevant content = false -> rewrite_calls content = content).
Proof.
  assert (Hout : contains (str "System.out") content = false ->
                 replace_system_out content = content).
  { intros H. apply not_occurs_by_test in H.
    change (~ occurs (marker (str "out")) content) in H.
    unfold replace_system_out, apply_patterns.
    cbn [println_patterns fold_left fst snd].
    rewrite (@sub_without_marker (str "out") _ _ content (or_introl eq_refl) H).
    rewrite (@sub_without_marker (str "out") _ _ content
               (or_intror (or_introl eq_refl)) H).
    exact (@sub_without_marker (str "out") _ _ content
             (or_intror (or_intror eq_refl)) H). }
  assert (Herr : contains (str "System.err") content = false ->
                 replace_system_err content = content).
  { intros H. apply not_occurs_by_test in H.
    change (~ occurs (marker (str "err")) content) in H.
    unfold replace_system_err, apply_patterns.
    cbn [println_patterns fold_left fst snd].
    rewrite (@sub_without_marker (str "err") _ _ content (or_introl eq_refl) H).
    rewrite (@sub_without_marker (str "err") _ _ content
               (or_intror (or_introl eq_refl)) H).
    exact (@sub_without_marker (str "err") _ _ content
             (or_intror (or_intror eq_refl)) H). }
  split; [exact Hout|]. split; [exact Herr|].
  unfold is_relevant. rewrite negb_false_iff, andb_true_iff, !negb_true_iff.
  intros [Ho He]. unfold rewrite_calls. now rewrite Hout, Herr.
Qed.
(** ** What [process_file] does to the world *)




(** ** The run as a whole *)

Lemma process_file_keeps_domain (uni_alnum : char -> bool) (file_path : text)
  (dry_run : bool) (w : world) (p : processed) :
  process_file uni_alnum file_path dry_run w = Some p ->
  forall q, w_fs (p_world p) q = None <-> w_fs w q = None.
Proof.
  rewrite process_file_eq.
  destruct (w_fs w file_path) as [content|] eqn:Hfs; [|discriminate].
  intros Hp q. injection Hp as <-. unfold process_file_outcome.
  destruct (negb (is_relevant content)); [reflexivity|].
  destruct (text_eqb (transform uni_alnum content) content); [reflexivity|].
  destruct dry_run; [reflexivity|].
  cbn [p_world w_fs]. unfold fs_write.
  destruct (text_eqb q file_path) eqn:E; [|reflexivity].
  apply text_eqb_eq in E. subst q. rewrite Hfs. split; discriminate.
Qed.



Lemma step_messages_neutral (uni_alnum : char -> bool) (c : text) :
  processed_paths (step_messages uni_alnum c) = []
  /\ changed_verdicts (step_messages uni_alnum c) = 0.
Proof.
  unfold step_messages.
  destruct (negb (has_slf4j_import c));
    destruct (get_class_name uni_alnum (import_step uni_alnum c)) as [cn|];
    try (destruct (negb (text_eqb cn [])
                   && negb (has_logger_declaration (import_step uni_alnum c))));
    split; reflexivity.
Qed.

Lemma processed_paths_app (a b : list message) :
  processed_paths (a ++ b) = processed_paths a ++ processed_paths b.
Proof. apply flat_map_app. Qed.

Lemma changed_verdicts_app (a b : list message) :
  changed_verdicts (a ++ b) = changed_verdicts a + changed_verdicts b.
Proof. unfold changed_verdicts. now rewrite filter_app, length_app. Qed.

Lemma process_file_transcript (uni_alnum : char -> bool) (file_path : text)
  (dry_run : bool) (w : world) (p : processed) :
  process_file uni_alnum file_path dry_run w = Some p ->
  processed_paths (w_console (p_world p))
  = processed_paths (w_console w) ++ [file_path]
  /\ changed_verdicts (w_console (p_world p))
     = changed_verdicts (w_console w) + (if p_result p then 1 else 0)
  /\ length (w_writes (p_world p))
     = length (w_writes w) + (if p_result p && negb dry_run then 1 else 0).
Proof.
  rewrite process_file_eq.
  destruct (w_fs w file_path) as [content|]; [|discriminate].
  intros Hp. injection Hp as <-. unfold process_file_outcome.
  destruct (step_messages_neutral uni_alnum content) as [Hs1 Hs2].
  destruct (negb (is_relevant content));
    [|destruct (text_eqb (transform uni_alnum content) content);
      [|destruct dry_run]];
    cbn [p_world p_result w_console w_writes andb negb];
    rewrite ?processed_paths_app, ?changed_verdicts_app, ?Hs1, ?Hs2,
      ?length_app, ?app_nil_r;
    cbn; repeat split; lia.
Qed.

Lemma process_all_transcript (uni_alnum : char -> bool) (files : list text)
  (dry_run : bool) :
  forall n w n' w',
    process_all uni_alnum files dry_run n w = Some (n', w') ->
    processed_paths (w_console w') = processed_paths (w_console w) ++ files
    /\ n <= n' <= n + length files
    /\ changed_verdicts (w_console w') + n = changed_verdicts (w_console w) + n'
    /\ length (w_writes w') + (if dry_run then n' else n)
       = length (w_writes w) + n'.
Proof.
  induction files as [|f files IH]; intros n w n' w' H.
  - cbn in H. injection H as <- <-. rewrite app_nil_r. cbn.
    repeat split; try lia. destruct dry_run; lia.
  - cbn [process_all] in H.
    destruct (process_file uni_alnum f dry_run w) as [p|] eqn:Hp;
      [|discriminate].
    destruct (process_file_transcript _ _ _ _ Hp) as (H1 & H2 & H3).
    apply IH in H as (I1 & I2 & I3 & I4).
    cbn [say w_console w_writes] in I1, I3, I4.
    rewrite processed_paths_app in I1. rewrite changed_verdicts_app in I3.
    cbn in I1, I3. rewrite app_nil_r in I1.
    rewrite I1, H1, <- app_assoc. cbn [app length].
    split; [reflexivity|].
    destruct (p_result p), dry_run; cbn [andb negb] in *; lia.
Qed.

(** X6: the transcript of a run of [main] that ends.  The lines
    [Procesando] name the collected files, each once and in the order of the
    walk; the console ends with the summary (and the hint, in a preview);
    the count of the summary is at most the number of files, it is the
    number of verdicts [Archivo actualizado] or [Se actualizaria] printed,
    and outside a preview it is the number of writes. *)
Theorem main_transcript (uni_alnum : char -> bool) (argv : list text)
  (t : dirtree) (w w' : world) :
  main uni_alnum argv t w = Some w' ->
  processed_paths (w_console w') = processed_paths (w_console w) ++ java_files t
  /\ exists updated_count before,
      w_console w'
      = before ++ MsgSummary (existsb (text_eqb (str "--dry-run")) argv)
                    updated_count (length (java_files t))
          :: (if existsb (text_eqb (str "--dry-run")) argv
              then [MsgHint] else [])
      /\ updated_count <= length (java_files t)
      /\ changed_verdicts (w_console w')
         = changed_verdicts (w_console w) + updated_count
      /\ length (w_writes w')
         = length (w_writes w)
           + (if existsb (text_eqb (str "--dry-run")) argv
              then 0 else updated_count).
Proof.
  unfold main.
  set (dry_run := existsb (text_eqb (str "--dry-run")) argv).
  set (w0 := say (MsgFound (length (java_files t)))
               (if dry_run then say MsgDryRunBanner w else w)).
  destruct (process_all uni_alnum (java_files t) dry_run 0 w0)
    as [[n w1]|] eqn:Hall; [|discriminate].
  intros H. injection H as <-.
  apply process_all_transcript in Hall as (I1 & I2 & I3 & I4).
  assert (P0 : processed_paths (w_console w0) = processed_paths (w_console w)).
  { unfold w0. destruct dry_run; cbn [say w_console];
      rewrite ?processed_paths_app; cbn; now rewrite ?app_nil_r. }
  assert (C0 : changed_verdicts (w_console w0) = changed_verdicts (w_console w)).
  { unfold w0. destruct dry_run; cbn [say w_console];
      rewrite ?changed_verdicts_app; cbn; lia. }
  assert (W0 : w_writes w0 = w_writes w) by (unfold w0; now destruct dry_run).
  rewrite P0 in I1. rewrite C0 in I3. rewrite W0 in I4.
  split.
  - destruct dry_run; cbn [say w_console];
      rewrite ?processed_paths_app; cbn; now rewrite ?app_nil_r.
  - exists n, (w_console w1). split; [|split; [lia|split]].
    + destruct dry_run; cbn [say w_console]; [|reflexivity].
      now rewrite <- app_assoc.
    + destruct dry_run; cbn [say w_console];
        rewrite ?changed_verdicts_app; cbn; lia.
    + destruct dry_run; cbn [say w_writes]; lia.
Qed.

Lemma main_transcript_witness :
  exists w',
    main ascii_only [str "migrate-to-slf4j.py"] (Dir [] [str "A.java"])
      (fresh_world (single_file (str "./A.java") hello_call)) = Some w'
    /\ processed_paths (w_console w')
       = processed_paths [] ++ java_files (Dir [] [str "A.java"]).
Proof.
  eexists. split.
  - vm_compute. reflexivity.
  - refine (proj1 (@main_transcript ascii_only [str "migrate-to-slf4j.py"]
                     (Dir [] [str "A.java"])
                     (fresh_world (single_file (str "./A.java") hello_call))
                     _ _)).
    vm_compute. reflexivity.
Defined.

(** ** The files collected *)

(** X7: the files [main] collects are exactly the entries whose name ends
    in [.java] of the directories whose path holds neither [target] nor
    [.git], each under the path [os.path.join] gives it. *)
Theorem java_files_exactly (t : dirtree) (f : text) :
  In f (java_files t)
  <-> exists root d name,
        In (root, d) (directories (str ".") t)
        /\ contains (str "target") root = false
        /\ contains (str ".git") root = false
        /\ In name (dir_files d)
        /\ ends_with (str ".java") name = true
        /\ f = path_join root name.
Proof.
  split.
  - intros H. apply java_files_origin in H
      as (r & d & n & Hd & Hex & Hn & He & ->).
    unfold is_excluded in Hex. apply orb_false_iff in Hex as [E1 E2].
    now exists r, d, n.
  - intros (r & d & n & Hd & E1 & E2 & Hn & He & ->).
    unfold java_files. rewrite walk_directories, flat_map_concat_map, map_map.
    rewrite <- flat_map_concat_map. apply in_flat_map.
    exists (r, d). split; [exact Hd|].
    cbn [collect_dir fst snd]. rewrite E1, E2. cbn [orb].
    apply in_map, filter_In. now split.
Qed.

(** ** The order of the search: greedy repetition *)

Lemma greedy_stop (R : Type) (cls : char -> bool) (rest : text)
  (cs : captures) (k : kont R) :
  stops cls rest -> greedy cls rest cs k = k [] rest cs.
Proof.
  destruct rest as [|c rest]; [reflexivity|].
  cbn [stops greedy]. now intros ->.
Qed.

Lemma greedy_none (R : Type) (cls : char -> bool) (m rest : text)
  (cs : captures) :
  Forall (fun c => cls c = true) m -> stops cls rest ->
  forall k : kont R,
    (forall u v, m = u ++ v -> k u (v ++ rest) cs = None) ->
    greedy cls (m ++ rest) cs k = None.
Proof.
  intros Hm Hstop. induction Hm as [|a m Ha Hm IH]; intros k Hk.
  - cbn [app]. rewrite greedy_stop by exact Hstop. exact (Hk [] [] eq_refl).
  - cbn [app greedy]. rewrite Ha.
    rewrite IH.
    + exact (Hk [] (a :: m) eq_refl).
    + intros u v ->. exact (Hk (a :: u) v eq_refl).
Qed.

(** The repetition takes the longest run with which the rest of the
    expression matches. *)
Lemma greedy_pick (R : Type) (cls : char -> bool) (m1 m2 rest : text)
  (cs : captures) (x : R) :
  Forall (fun c => cls c = true) m1 ->
  Forall (fun c => cls c = true) m2 -> stops cls rest ->
  forall k : kont R,
    (forall u v, m2 = u ++ v -> u <> [] -> k (m1 ++ u) (v ++ rest) cs = None) ->
    k m1 (m2 ++ rest) cs = Some x ->
    greedy cls (m1 ++ m2 ++ rest) cs k = Some x.
Proof.
  intros H1 H2 Hstop. induction H1 as [|a m1 Ha H1 IH]; intros k Hlong Hk.
  - cbn [app] in *. destruct H2 as [|b m2 Hb H2].
    + cbn [app] in *. now rewrite greedy_stop.
    + cbn [app greedy]. rewrite Hb. rewrite greedy_none; auto.
      intros u v ->. apply (Hlong (b :: u) v eq_refl). discriminate.
  - cbn [app greedy]. rewrite Ha. rewrite IH; auto.
Qed.


Lemma rplus_pick (R : Type) (cls : char -> bool) (m1 m2 rest : text)
  (cs : captures) (k : kont R) (x : R) :
  m1 <> [] ->
  Forall (fun c => cls c = true) m1 ->
  Forall (fun c => cls c = true) m2 -> stops cls rest ->
  (forall u v, m2 = u ++ v -> u <> [] -> k (m1 ++ u) (v ++ rest) cs = None) ->
  k m1 (m2 ++ rest) cs = Some x ->
  rmatch (RPlus cls) (m1 ++ m2 ++ rest) cs k = Some x.
Proof.
  intros Hne H1 H2 Hstop Hlong Hk.
  destruct H1 as [|a m1 Ha H1]; [congruence|].
  cbn [app rmatch]. rewrite Ha.
  apply greedy_pick; auto.
Qed.

Lemma rplus_longest (R : Type) (cls : char -> bool) (m rest : text)
  (cs : captures) (k : kont R) (x : R) :
  m <> [] -> Forall (fun c => cls c = true) m -> stops cls rest ->
  k m rest cs = Some x -> rmatch (RPlus cls) (m ++ rest) cs k = Some x.
Proof.
  intros Hne Hm Hstop Hk.
  apply (@rplus_pick R cls m [] rest cs k x Hne Hm (Forall_nil _) Hstop).
  - intros u v H. symmetry in H. apply app_eq_nil in H as [-> _]. congruence.
  - exact Hk.
Qed.

Lemma rlit_app (R : Type) (w rest : text) (cs : captures) (k : kont R) :
  rmatch (RLit w) (w ++ rest) cs k = k w rest cs.
Proof. cbn [rmatch]. now rewrite strip_prefix_app. Qed.

(** With a continuation that accepts everything the repetition takes the
    whole run. *)
Lemma greedy_total (R : Type) (cls : char -> bool) (s : text) (cs : captures) :
  forall (k : kont R) (x : R),
    (forall m rest c, k m rest c <> None) ->
    greedy cls s cs k = Some x ->
    exists m rest, s = m ++ rest /\ Forall (fun c => cls c = true) m
                   /\ stops cls rest /\ k m rest cs = Some x.
Proof.
  induction s as [|a s IH]; intros k x Hk H.
  - exists [], []. now repeat split.
  - cbn [greedy] in H. destruct (cls a) eqn:Ha.
    + destruct (greedy cls s cs (fun m rest c => k (a :: m) rest c))
        as [y|] eqn:Hg.
      * injection H as ->.
        apply IH in Hg as (m & rest & -> & Hm & Hstop & Hx);
          [|intros; apply Hk].
        exists (a :: m), rest. repeat split; auto.
      * exfalso. revert Hg. clear -Hk.
        assert (G : forall s (k : kont R),
                   (forall m rest c, k m rest c <> None) ->
                   greedy cls s cs k <> None).
        { clear. induction s as [|b s IHs]; intros k Hk; cbn [greedy].
          - apply Hk.
          - destruct (cls b); [|apply Hk].
            destruct (greedy cls s cs (fun m rest c => k (b :: m) rest c))
              eqn:E; [discriminate|].
            exfalso. revert E. apply IHs. intros; apply Hk. }
        apply G. intros; apply Hk.
    + exists [], (a :: s). repeat split; auto.
Qed.

Lemma rmatch_seq (R : Type) (r1 r2 : regex) (s : text) (cs : captures)
  (k : kont R) :
  rmatch (RSeq r1 r2) s cs k
  = rmatch r1 s cs (fun m1 s1 c1 =>
      rmatch r2 s1 c1 (fun m2 s2 c2 => k (m1 ++ m2) s2 c2)).
Proof. reflexivity. Qed.

Lemma rmatch_group (R : Type) (n : nat) (r : regex) (s : text) (cs : captures)
  (k : kont R) :
  rmatch (RGroup n r) s cs k
  = rmatch r s cs (fun m rest c => k m rest ((n, m) :: c)).
Proof. reflexivity. Qed.

(** ** The three forms of a call, matched at the head of a text *)

Lemma literal_match (stream g post : text) :
  g <> [] -> Forall (fun c => not_quote c = true) g ->
  match_here (pattern_literal stream)
    ((println_open stream ++ [QUOTE]) ++ g ++ ([QUOTE] ++ str ");") ++ post)
  = Some (MkMatch ((println_open stream ++ [QUOTE]) ++ g ++ [QUOTE] ++ str ");")
                  post [(1, g)]).
Proof.
  intros Hne Hg. unfold match_here, pattern_literal. cbn [rseq].
  rewrite rmatch_seq, rlit_app. rewrite rmatch_seq, rmatch_group.
  apply rplus_longest; [exact Hne|exact Hg|reflexivity|].
  now rewrite rlit_app.
Qed.

Lemma variable_match (stream g tail : text) :
  g <> [] -> Forall (fun c => not_quote c = true) g ->
  Forall (fun c => not_quote c = true) tail ->
  ~ occurs (str ");") tail ->
  match_here (pattern_variable stream)
    (println_open stream ++ g ++ (str ");" ++ tail) ++ [])
  = Some (MkMatch (println_open stream ++ g ++ str ");") (tail ++ []) [(1, g)]).
Proof.
  intros Hne Hg Htail Hfree. unfold match_here, pattern_variable. cbn [rseq].
  rewrite rmatch_seq, rlit_app. rewrite rmatch_seq, rmatch_group.
  apply rplus_pick; [exact Hne|exact Hg| |exact I| |].
  - repeat constructor; exact Htail.
  - intros u v Huv Hu.
    cbv beta. cbn [rmatch].
    destruct (strip_prefix (str ");") (v ++ [])) as [rest|] eqn:E;
      [|reflexivity].
    exfalso. apply strip_prefix_spec in E. rewrite app_nil_r in E. subst v.
    destruct u as [|a u]; [congruence|].
    injection Huv as _ Huv.
    destruct u as [|b u].
    + discriminate Huv.
    + injection Huv as _ Huv. apply Hfree. now exists u, rest.
  - cbv beta. now rewrite <- app_assoc, rlit_app.
Qed.




(** ** The rules of the call rewriter *)

Lemma no_S_no_marker (stream w : text) :
  ~ In CAPITAL_S w -> ~ occurs (marker stream) w.
Proof.
  intros H (a & b & ->). apply H. apply in_or_app. right. now left.
Qed.

Lemma marker_join (stream : text) (c : char) (a b : text) :
  ~ In c (marker stream) ->
  ~ occurs (marker stream) a -> ~ occurs (marker stream) b ->
  ~ occurs (marker stream) (a ++ c :: b).
Proof.
  intros Hc Ha Hb H. apply occurs_sep in H as [H|H]; auto.
Qed.


Lemma sub_copies_word (stream : text) (r : regex) (t : template)
  (w' : text) (c : char) (tail : text) :
  call_pattern stream r -> ~ In c (println_open stream) ->
  ~ occurs (marker stream) (w' ++ [c]) ->
  sub r t ((w' ++ [c]) ++ tail) = (w' ++ [c]) ++ sub r t tail.
Proof.
  intros Hr Hc Hfree. apply sub_copies. intros u v Huv Hv.
  exact (@none_inside_word stream r _ w' c Hr eq_refl Hc Hfree u v tail Huv Hv).
Qed.

Section CallRules.
Variables stream level : text.
Hypothesis Hstream : stream = OUT \/ stream = ERR.
Hypothesis Hlevel : ~ In CAPITAL_S level.

Lemma before_call (r : regex) (t : template) (pre tail : text) :
  call_pattern stream r -> ~ occurs (marker stream) pre ->
  sub r t (pre ++ println_open stream ++ tail)
  = pre ++ sub r t (println_open stream ++ tail).
Proof.
  intros Hr Hpre.
  change (println_open stream ++ tail)
    with (CAPITAL_S :: (tl (println_open stream) ++ tail)).
  apply (sub_copies_before _ _ Hr Hpre).
  destruct Hstream as [ -> | -> ]; cbn; intuition discriminate.
Qed.

Lemma log_call_free (pre body : text) :
  ~ occurs (marker stream) pre -> ~ occurs (marker stream) body ->
  ~ occurs (marker stream)
      ((pre ++ log_open level ++ body ++ [RPAREN]) ++ [SEMICOLON]).
Proof.
  intros Hpre Hbody.
  replace ((pre ++ log_open level ++ body ++ [RPAREN]) ++ [SEMICOLON])
    with (pre ++ 108%N :: (str "og." ++ level)
              ++ LPAREN :: body ++ RPAREN :: [SEMICOLON])
    by (unfold log_open; same_text).
  apply marker_join; [|exact Hpre|].
  { destruct Hstream as [ -> | -> ]; cbn; intuition discriminate. }
  apply marker_join.
  { destruct Hstream as [ -> | -> ]; cbn; intuition discriminate. }
  { apply no_S_no_marker. intros H. apply in_app_or in H as [H|H]; [|auto].
    cbn in H. intuition discriminate. }
  apply marker_join; [|exact Hbody|].
  { destruct Hstream as [ -> | -> ]; cbn; intuition discriminate. }
  apply no_S_no_marker. cbn. intuition discriminate.
Qed.

Lemma log_call_copied (r : regex) (t : template) (pre body tail : text) :
  call_pattern stream r ->
  ~ occurs (marker stream) pre -> ~ occurs (marker stream) body ->
  sub r t (pre ++ (log_open level ++ body ++ str ");") ++ tail)
  = pre ++ (log_open level ++ body ++ str ");") ++ sub r t tail.
Proof.
  intros Hr Hpre Hbody.
  replace (pre ++ (log_open level ++ body ++ str ");") ++ tail)
    with (((pre ++ log_open level ++ body ++ [RPAREN]) ++ [SEMICOLON]) ++ tail)
    by same_text.
  rewrite (@sub_copies_word stream r t _ SEMICOLON tail Hr).
  - same_text.
  - destruct Hstream as [ -> | -> ]; cbn; intuition discriminate.
  - now apply log_call_free.
Qed.

Lemma quoted_free (g : text) :
  ~ occurs (marker stream) g ->
  ~ occurs (marker stream) ([QUOTE] ++ g ++ [QUOTE]).
Proof.
  intros Hg.
  assert (HQ : ~ In QUOTE (marker stream))
    by (destruct Hstream as [ -> | -> ]; cbn; intuition discriminate).
  apply (@marker_join stream QUOTE [] (g ++ [QUOTE]) HQ).
  - apply no_S_no_marker. intros [].
  - apply marker_join; [exact HQ|exact Hg|].
    apply no_S_no_marker. intros [].
Qed.

Lemma literal_rule (pre g post : text) :
  ~ occurs (marker stream) pre ->
  g <> [] -> Forall (fun c => not_quote c = true) g ->
  ~ occurs (marker stream) g ->
  apply_patterns (println_patterns stream level)
    (pre ++ println_open stream ++ [QUOTE] ++ g ++ [QUOTE] ++ str ");" ++ post)
  = pre ++ log_open level ++ [QUOTE] ++ g ++ [QUOTE] ++ str ");"
    ++ apply_patterns (println_patterns stream level) post.
Proof.
  intros Hpre Hne Hq Hg.
  unfold apply_patterns. cbn [println_patterns fold_left fst snd].
  rewrite (@before_call (pattern_literal stream) _ pre _
             (or_introl eq_refl) Hpre).
  replace (println_open stream ++ [QUOTE] ++ g ++ [QUOTE] ++ str ");" ++ post)
    with ((println_open stream ++ [QUOTE]) ++ g ++ ([QUOTE] ++ str ");") ++ post)
    by same_text.
  rewrite (sub_match _ _ _ (literal_match stream post Hne Hq))
    by (cbn [m_text]; unfold println_open; discriminate).
  cbn [m_caps m_rest template_literal expand group Nat.eqb].
  replace (pre ++ ((log_open level ++ [QUOTE]) ++ g ++ ([QUOTE] ++ str ");") ++ [])
           ++ sub (pattern_literal stream) (template_literal level) post)
    with (pre ++ (log_open level ++ ([QUOTE] ++ g ++ [QUOTE]) ++ str ");")
          ++ sub (pattern_literal stream) (template_literal level) post)
    by same_text.
  rewrite (@log_call_copied (pattern_concat stream) _ pre _ _
             (or_intror (or_introl eq_refl)) Hpre (quoted_free Hg)).
  rewrite (@log_call_copied (pattern_variable stream) _ pre _ _
             (or_intror (or_intror eq_refl)) Hpre (quoted_free Hg)).
  same_text.
Qed.

Lemma not_quote_spec (c : char) : not_quote c = true <-> c <> QUOTE.
Proof.
  unfold not_quote. destruct (N.eqb_spec c QUOTE); split; intros H;
    congruence || reflexivity || discriminate H.
Qed.


Section ConcatCall.
Variables a w1 w2 w3 b : text.
Hypothesis Ha : a <> [].
Hypothesis Hqa : Forall (fun c => not_quote c = true) a.
Hypothesis H1 : Forall (fun c => is_space c = true) w1.
Hypothesis H2 : Forall (fun c => is_space c = true) w2.
Hypothesis H3 : Forall (fun c => is_space c = true) w3.
Hypothesis Hb : b <> [].
Hypothesis Hsb : stops is_space b.
Hypothesis Hrb : Forall (fun c => not_rparen c = true) b.
Hypothesis Hfa : ~ occurs (marker stream) a.
Hypothesis Hfb : ~ occurs (marker stream) b.





End ConcatCall.

Lemma sub_unmatched (r : regex) (t : template) (s : text) :
  (forall u v, s = u ++ v -> match_here r v = None) -> sub r t s = s.
Proof.
  intros Hnone. rewrite <- (app_nil_r s) at 1. rewrite sub_copies.
  - unfold sub. cbn [sub_from].
    rewrite (Hnone s [] (eq_sym (app_nil_r s))). apply app_nil_r.
  - intros u v Huv _. rewrite app_nil_r. exact (Hnone u v Huv).
Qed.

Lemma quote_patterns_idle (r : regex) (t : template) (s : text) :
  r = pattern_literal stream \/ r = pattern_concat stream ->
  ~ In QUOTE s -> sub r t s = s.
Proof.
  intros Hr Hs. apply sub_unmatched. intros u v -> .
  destruct (match_here r v) as [res|] eqn:Hres; [|reflexivity].
  exfalso. apply Hs. apply match_here_sound in Hres as [Hv Hm].
  apply in_or_app. right. rewrite Hv. apply in_or_app. left.
  destruct Hr as [ -> | -> ].
  - apply pattern_literal_shape in Hm as (g & -> & _).
    apply in_or_app. left. apply in_or_app. right. now left.
  - apply pattern_concat_shape in Hm as (g1 & x1 & x2 & x3 & g2 & -> & _).
    apply in_or_app. left. apply in_or_app. right. now left.
Qed.

Lemma call_pattern_closing (r : regex) (m : text) (cs : captures) :
  call_pattern stream r -> matches r m [] cs -> occurs (str ");") m.
Proof.
  intros [ -> | [ -> | -> ] ] Hm.
  - apply pattern_literal_shape in Hm as (g & -> & _).
    exists ((println_open stream ++ [QUOTE]) ++ g ++ [QUOTE]), [].
    same_text.
  - apply pattern_concat_shape in Hm as (g1 & x1 & x2 & x3 & g2 & -> & _).
    exists ((println_open stream ++ [QUOTE]) ++ g1 ++ str ":" ++ x1 ++ [QUOTE]
            ++ x2 ++ str "+" ++ x3 ++ g2), [].
    same_text.
  - apply pattern_variable_shape in Hm as (g & -> & _).
    exists (println_open stream ++ g), []. same_text.
Qed.

Lemma no_closing_idle (r : regex) (t : template) (s : text) :
  call_pattern stream r -> ~ occurs (str ");") s -> sub r t s = s.
Proof.
  intros Hr Hs. apply sub_unmatched. intros u v -> .
  destruct (match_here r v) as [res|] eqn:Hres; [|reflexivity].
  exfalso. apply Hs. apply match_here_sound in Hres as [Hv Hm].
  apply occurs_app_l. rewrite Hv. apply occurs_app_r.
  exact (call_pattern_closing Hr Hm).
Qed.

Lemma quote_free_rule (pre g tail : text) :
  ~ occurs (marker stream) pre ->
  ~ In QUOTE pre -> g <> [] -> ~ In QUOTE g -> ~ In QUOTE tail ->
  ~ occurs (str ");") tail ->
  apply_patterns (println_patterns stream level)
    (pre ++ println_open stream ++ g ++ str ");" ++ tail)
  = pre ++ log_open level ++ [QUOTE] ++ str "{}" ++ [QUOTE] ++ str "," ++ g
    ++ str ");" ++ tail.
Proof.
  intros Hpre Hqpre Hne Hqg Hqtail Htail.
  assert (Hq : ~ In QUOTE
                 (pre ++ println_open stream ++ g ++ str ");" ++ tail)).
  { apply not_in_app; [exact Hqpre|].
    apply not_in_app.
    { destruct Hstream as [ -> | -> ]; cbn; intuition discriminate. }
    apply not_in_app; [exact Hqg|].
    apply not_in_cons; [discriminate|].
    apply not_in_cons; [discriminate|exact Hqtail]. }
  unfold apply_patterns. cbn [println_patterns fold_left fst snd].
  rewrite (@quote_patterns_idle (pattern_literal stream) _ _
             (or_introl eq_refl) Hq).
  rewrite (@quote_patterns_idle (pattern_concat stream) _ _
             (or_intror eq_refl) Hq).
  rewrite (@before_call (pattern_variable stream) _ pre _
             (or_intror (or_intror eq_refl)) Hpre).
  assert (Hall : forall w, ~ In QUOTE w -> Forall (fun c => not_quote c = true) w).
  { intros w Hw. apply Forall_forall. intros c Hc. apply not_quote_spec.
    intros ->. contradiction. }
  replace (println_open stream ++ g ++ str ");" ++ tail)
    with (println_open stream ++ g ++ (str ");" ++ tail) ++ [])
    by (now rewrite app_nil_r).
  rewrite (sub_match _ _ _ (variable_match stream Hne (Hall g Hqg)
                              (Hall tail Hqtail) Htail))
    by (cbn [m_text]; unfold println_open; discriminate).
  cbn [m_caps m_rest template_variable expand group Nat.eqb].
  rewrite !app_nil_r.
  rewrite (@no_closing_idle (pattern_variable stream) _ tail
             (or_intror (or_intror eq_refl)) Htail).
  same_text.
Qed.

(** The text before the first marker is never changed. *)
Lemma prefix_kept (pre post : text) :
  ~ occurs (marker stream) pre ->
  exists post',
    apply_patterns (println_patterns stream level) (pre ++ marker stream ++ post)
    = pre ++ post'
    /\ (post' = [] \/ exists c rest, post' = c :: rest
                                     /\ ~ In c (tl (marker stream))).
Proof.
  intros Hpre.
  assert (HS : ~ In CAPITAL_S (tl (marker stream)))
    by (destruct Hstream as [ -> | -> ]; cbn; intuition discriminate).
  assert (Hl : ~ In 108%N (tl (marker stream)))
    by (destruct Hstream as [ -> | -> ]; cbn; intuition discriminate).
  assert (Hstep : forall r t x,
             call_pattern stream r ->
             (In (r, t) (println_patterns stream level)) ->
             (exists c rest, x = c :: rest /\ (c = CAPITAL_S \/ c = 108%N)) ->
             exists y, sub r t (pre ++ x) = pre ++ y
                       /\ exists c rest, y = c :: rest
                                         /\ (c = CAPITAL_S \/ c = 108%N)).
  { intros r t x Hr Hin (c & rest & -> & Hc).
    assert (Hc' : ~ In c (tl (marker stream)))
      by (destruct Hc as [ -> | -> ]; assumption).
    rewrite (sub_copies_before t rest Hr Hpre Hc').
    eexists. split; [reflexivity|].
    destruct (match_here r (c :: rest)) as [res|] eqn:Hres.
    - rewrite (sub_match r t _ Hres)
        by (exact (call_pattern_nonempty Hr _ Hres)).
      destruct (@println_patterns_fixed stream level r t _ res Hin Hres)
        as [_ [args Hargs]].
      rewrite Hargs. exists 108%N. eexists. split; [reflexivity|now right].
    - rewrite (sub_nomatch r t _ _ Hres). exists c. eexists.
      split; [reflexivity|exact Hc]. }
  unfold apply_patterns. cbn [println_patterns fold_left fst snd].
  destruct (Hstep (pattern_literal stream) (template_literal level)
              (marker stream ++ post) (or_introl eq_refl) (or_introl eq_refl))
    as (y1 & -> & Hy1).
  { exists CAPITAL_S. eexists. split; [reflexivity|now left]. }
  destruct (Hstep (pattern_concat stream) (template_concat level) y1
              (or_intror (or_introl eq_refl)) (or_intror (or_introl eq_refl)) Hy1)
    as (y2 & -> & Hy2).
  destruct (Hstep (pattern_variable stream) (template_variable level) y2
              (or_intror (or_intror eq_refl))
              (or_intror (or_intror (or_introl eq_refl))) Hy2)
    as (y3 & -> & (c & rest & -> & Hc)).
  exists (c :: rest). split; [reflexivity|]. right. exists c, rest.
  split; [reflexivity|]. destruct Hc as [ -> | -> ]; assumption.
Qed.

End CallRules.


Lemma no_S_info : ~ In CAPITAL_S INFO.
Proof. cbn; intuition discriminate. Qed.

Lemma no_S_error : ~ In CAPITAL_S ERROR.
Proof. cbn; intuition discriminate. Qed.

(** X11: the first rule of the rewriter, for any message.  A call with one
    string literal [g] (not empty, without a double quote) that does not
    hold the marker of the stream, after a text without the marker, becomes
    the log statement with the same literal; the text before it is kept and
    the text after it is rewritten on its own. *)
Theorem literal_call_rewritten (pre g post : text) :
  g <> [] -> Forall (fun c => not_quote c = true) g ->
  (~ occurs (str "System.out") pre -> ~ occurs (str "System.out") g ->
   replace_system_out
     (pre ++ str "System.out.println(" ++ [QUOTE] ++ g ++ [QUOTE] ++ str ");"
      ++ post)
   = pre ++ str "log.info(" ++ [QUOTE] ++ g ++ [QUOTE] ++ str ");"
     ++ replace_system_out post)
  /\ (~ occurs (str "System.err") pre -> ~ occurs (str "System.err") g ->
      replace_system_err
        (pre ++ str "System.err.println(" ++ [QUOTE] ++ g ++ [QUOTE] ++ str ");"
         ++ post)
      = pre ++ str "log.error(" ++ [QUOTE] ++ g ++ [QUOTE] ++ str ");"
        ++ replace_system_err post).
Proof.
  intros Hne Hq. split; intros Hpre Hg.
  - exact (@literal_rule OUT INFO (or_introl eq_refl) no_S_info pre g post
             Hpre Hne Hq Hg).
  - exact (@literal_rule ERR ERROR (or_intror eq_refl) no_S_error pre g post
             Hpre Hne Hq Hg).
Qed.

Lemma literal_call_rewritten_witness :
  replace_system_out
    (str "f(); " ++ str "System.out.println(" ++ [QUOTE] ++ str "Server up"
     ++ [QUOTE] ++ str ");" ++ str " g();")
  = str "f(); " ++ str "log.info(" ++ [QUOTE] ++ str "Server up" ++ [QUOTE]
    ++ str ");" ++ replace_system_out (str " g();").
Proof.
  apply (proj1 (@literal_call_rewritten (str "f(); ") (str "Server up")
                  (str " g();") ltac:(discriminate)
                  ltac:(repeat constructor))).
  - apply not_occurs_by_test. reflexivity.
  - apply not_occurs_by_test. reflexivity.
Defined.



(** X13: in a text without any double quote the rewriter of a stream makes
    one replacement at most: everything between the first opening of a call
    and the last closing [);] becomes the parameter of one log statement,
    further calls in between included, and the rest is copied. *)
Theorem quote_free_text_rewritten_once (pre g tail : text) :
  ~ In QUOTE pre -> g <> [] -> ~ In QUOTE g -> ~ In QUOTE tail ->
  ~ occurs (str ");") tail ->
  (~ occurs (str "System.out") pre ->
   replace_system_out (pre ++ str "System.out.println(" ++ g ++ str ");" ++ tail)
   = pre ++ str "log.info(" ++ [QUOTE] ++ str "{}" ++ [QUOTE] ++ str "," ++ g
     ++ str ");" ++ tail)
  /\ (~ occurs (str "System.err") pre ->
      replace_system_err
        (pre ++ str "System.err.println(" ++ g ++ str ");" ++ tail)
      = pre ++ str "log.error(" ++ [QUOTE] ++ str "{}" ++ [QUOTE] ++ str ","
        ++ g ++ str ");" ++ tail).
Proof.
  intros Hqpre Hne Hqg Hqtail Htail. split; intros Hpre.
  - exact (@quote_free_rule OUT INFO (or_introl eq_refl) pre g tail
             Hpre Hqpre Hne Hqg Hqtail Htail).
  - exact (@quote_free_rule ERR ERROR (or_intror eq_refl) pre g tail
             Hpre Hqpre Hne Hqg Hqtail Htail).
Qed.

Lemma quote_free_text_rewritten_once_witness :
  replace_system_out
    (str "f(); " ++ str "System.out.println("
     ++ str "a); System.out.println(b" ++ str ");" ++ str " }")
  = str "f(); " ++ str "log.info(" ++ [QUOTE] ++ str "{}" ++ [QUOTE] ++ str ","
    ++ str "a); System.out.println(b" ++ str ");" ++ str " }".
Proof.
  apply (proj1 (@quote_free_text_rewritten_once (str "f(); ")
                  (str "a); System.out.println(b") (str " }")
                  ltac:(apply not_in_by_test; reflexivity)
                  ltac:(discriminate)
                  ltac:(apply not_in_by_test; reflexivity)
                  ltac:(apply not_in_by_test; reflexivity)
                  ltac:(apply not_occurs_by_test; reflexivity))).
  apply not_occurs_by_test. reflexivity.
Defined.

(** X14: the rewriter of a stream never changes the text before the first
    marker of that stream. *)
Theorem text_before_first_marker_kept (pre post : text) :
  (~ occurs (str "System.out") pre ->
   exists post',
     replace_system_out (pre ++ str "System.out" ++ post) = pre ++ post')
  /\ (~ occurs (str "System.err") pre ->
      exists post',
        replace_system_err (pre ++ str "System.err" ++ post) = pre ++ post').
Proof.
  split; intros Hpre.
  - destruct (@prefix_kept OUT INFO (or_introl eq_refl) pre post Hpre)
      as (post' & H & _).
    now exists post'.
  - destruct (@prefix_kept ERR ERROR (or_intror eq_refl) pre post Hpre)
      as (post' & H & _).
    now exists post'.
Qed.

Lemma text_before_first_marker_kept_witness :
  exists post',
    replace_system_out
      (str "int x = 1; " ++ str "System.out" ++ str ".println(x);")
    = str "int x = 1; " ++ post'.
Proof.
  apply (proj1 (@text_before_first_marker_kept (str "int x = 1; ")
                  (str ".println(x);"))).
  apply not_occurs_by_test. reflexivity.
Defined.



(** ** What the guards and the class name recognise *)

Lemma plus_matches (cls : char -> bool) (w : text) (cs : captures) :
  w <> [] -> Forall (fun c => cls c = true) w -> matches (RPlus cls) w cs cs.
Proof.
  intros Hne Hw. destruct Hw as [|c w Hc Hw]; [congruence|].
  now constructor.
Qed.

(** X8: [has_logger_declaration] finds a declaration exactly when the text
    holds the words [private], [static], [final], [Logger] and [log] in this
    order, separated by white space and nothing else, with an equals sign
    after optional white space. *)
Theorem has_logger_declaration_shape (content : text) :
  has_logger_declaration content = true
  <-> exists a w1 w2 w3 w4 w5 b,
        content = a ++ str "private" ++ w1 ++ str "static" ++ w2
                  ++ str "final" ++ w3 ++ str "Logger" ++ w4 ++ str "log"
                  ++ w5 ++ str "=" ++ b
        /\ w1 <> [] /\ w2 <> [] /\ w3 <> [] /\ w4 <> []
        /\ Forall (fun c => is_space c = true) (w1 ++ w2 ++ w3 ++ w4 ++ w5).
Proof.
  rewrite has_logger_declaration_spec. split.
  - intros (w & cs & Hm & a & b & ->).
    unfold logger_decl_pattern in Hm. cbn [rseq] in Hm. invert_matches.
    match goal with
    | |- context [a ++ (str "private" ++ (?c1 :: ?m1) ++ str "static"
                        ++ (?c2 :: ?m2) ++ str "final" ++ (?c3 :: ?m3)
                        ++ str "Logger" ++ (?c4 :: ?m4) ++ str "log" ++ ?m5
                        ++ str "=") ++ b] =>
        exists a, (c1 :: m1), (c2 :: m2), (c3 :: m3), (c4 :: m4), m5, b
    end.
    split; [same_text|].
    repeat (split; [discriminate|]).
    repeat (apply Forall_app; split); try (constructor; assumption); assumption.
  - intros (a & w1 & w2 & w3 & w4 & w5 & b & -> & N1 & N2 & N3 & N4 & Hsp).
    apply Forall_app in Hsp as [S1 Hsp]. apply Forall_app in Hsp as [S2 Hsp].
    apply Forall_app in Hsp as [S3 Hsp]. apply Forall_app in Hsp as [S4 S5].
    exists (str "private" ++ w1 ++ str "static" ++ w2 ++ str "final" ++ w3
            ++ str "Logger" ++ w4 ++ str "log" ++ w5 ++ str "="), [].
    split.
    + unfold logger_decl_pattern. cbn [rseq].
      repeat (eapply M_Seq; [first [apply M_Lit | now apply plus_matches
                                   | now apply M_Star]|]).
      apply M_Lit.
    + exists a, b. same_text.
Qed.

Lemma search_from_first (r : regex) (s : text) :
  forall pos m,
    search_from r s pos = Some m ->
    exists a b res,
      s = a ++ b /\ mo_start m = pos + length a
      /\ match_here r b = Some res
      /\ mo_text m = m_text res /\ mo_caps m = m_caps res
      /\ forall u v, a = u ++ v -> v <> [] -> match_here r (v ++ b) = None.
Proof.
  induction s as [|c s IH]; intros pos m; cbn [search_from].
  - destruct (match_here r []) as [res|] eqn:Hres; [|discriminate].
    intros H; injection H as <-. exists [], [], res. cbn.
    repeat split; auto.
    intros u v Huv Hv. symmetry in Huv. apply app_eq_nil in Huv as [_ ->].
    congruence.
  - destruct (match_here r (c :: s)) as [res|] eqn:Hres.
    + intros H; injection H as <-. exists [], (c :: s), res. cbn.
      repeat split; auto.
      intros u v Huv Hv. symmetry in Huv. apply app_eq_nil in Huv as [_ ->].
      congruence.
    + intros H. apply IH in H as (a & b & res & -> & Hstart & Hb & Ht & Hc & Hmin).
      exists (c :: a), b, res. cbn [app length].
      repeat split; auto; [lia|].
      intros [|x u] v Huv Hv.
      * cbn [app] in Huv. subst v. exact Hres.
      * cbn [app] in Huv. injection Huv as _ Huv. exact (Hmin u v Huv Hv).
Qed.

Lemma rplus_total (R : Type) (cls : char -> bool) (s : text) (cs : captures)
  (k : kont R) (x : R) :
  (forall m rest c, k m rest c <> None) ->
  rmatch (RPlus cls) s cs k = Some x ->
  exists m rest, s = m ++ rest /\ m <> []
                 /\ Forall (fun c => cls c = true) m
                 /\ stops cls rest /\ k m rest cs = Some x.
Proof.
  intros Hk H. cbn [rmatch] in H. destruct s as [|a s]; [discriminate|].
  destruct (cls a) eqn:Ha; [|discriminate].
  apply greedy_total in H as (m & rest & -> & Hm & Hstop & Hx);
    [|intros; apply Hk].
  exists (a :: m), rest. repeat split; auto. discriminate.
Qed.

Lemma class_name_match (uni_alnum : char -> bool) (s : text)
  (res : rmatch_result) :
  match_here (class_name_pattern uni_alnum) s = Some res ->
  exists w1 w2 cn,
    m_text res = str "public" ++ w1 ++ str "class" ++ w2 ++ cn
    /\ s = m_text res ++ m_rest res
    /\ w1 <> [] /\ Forall (fun c => is_space c = true) w1
    /\ w2 <> [] /\ Forall (fun c => is_space c = true) w2
    /\ cn <> [] /\ Forall (fun c => is_word uni_alnum c = true) cn
    /\ stops (is_word uni_alnum) (m_rest res)
    /\ m_caps res = [(1, cn)].
Proof.
  unfold match_here, class_name_pattern. cbn [rseq]. intros H.
  rewrite rmatch_seq in H.
  apply rmatch_sound in H as (m1 & s1 & c1 & -> & M1 & H).
  rewrite rmatch_seq in H.
  apply rmatch_sound in H as (m2 & s2 & c2 & -> & M2 & H).
  rewrite rmatch_seq in H.
  apply rmatch_sound in H as (m3 & s3 & c3 & -> & M3 & H).
  rewrite rmatch_seq in H.
  apply rmatch_sound in H as (m4 & s4 & c4 & -> & M4 & H).
  rewrite rmatch_group in H.
  apply rplus_total in H as (cn & rest & -> & Hne & Hcn & Hstop & H);
    [|discriminate].
  injection H as <-. cbn [m_text m_rest m_caps].
  invert_matches.
  match goal with
  | |- context [str "public" ++ (?a1 :: ?x1) ++ str "class" ++ (?a2 :: ?x2) ++ cn] =>
      exists (a1 :: x1), (a2 :: x2), cn
  end.
  repeat split; auto; try discriminate; try (constructor; assumption).
  same_text.
Qed.

(** X9: the name [get_class_name] returns is the word after the first
    [public class] of the text (both separated by white space): it is not
    empty, made of word characters, as long as possible, and no piece of
    the text that the expression matches starts earlier. *)
Theorem get_class_name_first_and_longest (uni_alnum : char -> bool) (content cn : text) :
  get_class_name uni_alnum content = Some cn ->
  exists a w1 w2 b,
    content = a ++ str "public" ++ w1 ++ str "class" ++ w2 ++ cn ++ b
    /\ w1 <> [] /\ Forall (fun c => is_space c = true) w1
    /\ w2 <> [] /\ Forall (fun c => is_space c = true) w2
    /\ cn <> [] /\ Forall (fun c => is_word uni_alnum c = true) cn
    /\ stops (is_word uni_alnum) b
    /\ forall a' m cs z,
         matches (class_name_pattern uni_alnum) m [] cs ->
         content = a' ++ m ++ z -> length a <= length a'.
Proof.
  unfold get_class_name, search.
  destruct (search_from _ content 0) as [mo|] eqn:Hs; [|discriminate].
  apply search_from_first in Hs
    as (a & b & res & -> & _ & Hres & _ & Hcaps & Hmin).
  rewrite Hcaps.
  destruct (class_name_match _ _ Hres)
    as (w1 & w2 & cn' & Ht & Hb & N1 & S1 & N2 & S2 & N3 & S3 & Hstop & ->).
  cbn [group Nat.eqb]. intros H; injection H as <-.
  exists a, w1, w2, (m_rest res). rewrite Hb, Ht.
  split; [same_text|]. repeat (split; [assumption|]).
  intros a' m cs z Hm Heq.
  destruct (Nat.le_gt_cases (length a) (length a')) as [|Hlt]; [assumption|].
  exfalso. rewrite <- Ht, <- Hb in Heq.
  apply app_cut in Heq as [(y & Hy & _)|(y & Hy & Ha & Hz)].
  - rewrite Hy, length_app in Hlt. lia.
  - apply (match_here_complete z Hm). rewrite Hz.
    exact (Hmin a' y Ha Hy).
Qed.

Lemma get_class_name_first_and_longest_witness :
  exists a w1 w2 b,
    sample_java
    = a ++ str "public" ++ w1 ++ str "class" ++ w2 ++ str "Foo" ++ b
    /\ w1 <> [] /\ w2 <> [] /\ stops (is_word ascii_only) b.
Proof.
  destruct (@get_class_name_first_and_longest ascii_only sample_java (str "Foo")
              eq_refl)
    as (a & w1 & w2 & b & H & N1 & _ & N2 & _ & _ & _ & Hstop & _).
  now exists a, w1, w2, b.
Defined.

Lemma class_name_found (uni_alnum : char -> bool) (content cn : text) :
  get_class_name uni_alnum content = Some cn ->
  exists a w1 w2 c b,
    content = a ++ str "public" ++ w1 ++ str "class" ++ w2 ++ c :: b
    /\ w1 <> [] /\ Forall (fun x => is_space x = true) w1
    /\ w2 <> [] /\ Forall (fun x => is_space x = true) w2
    /\ is_word uni_alnum c = true.
Proof.
  unfold get_class_name.
  destruct (search _ content) as [mo|] eqn:Hs; [|discriminate].
  intros _. apply search_sound in Hs as (a & b & -> & _ & Hm).
  unfold class_name_pattern in Hm. cbn [rseq] in Hm. invert_matches.
  match goal with
  | |- context [str "public" ++ (?a1 :: ?x1) ++ str "class" ++ (?a2 :: ?x2)
                ++ ?c :: ?m] =>
      exists a, (a1 :: x1), (a2 :: x2), c, (m ++ b)
  end.
  split; [same_text|].
  repeat split; try discriminate; try (constructor; assumption); assumption.
Qed.

(** X10: [get_class_name] returns [None] exactly when the text has no
    [public], white space, [class], white space and a word character in a
    row. *)
Theorem get_class_name_none_iff (uni_alnum : char -> bool) (content : text) :
  get_class_name uni_alnum content = None
  <-> ~ exists a w1 w2 c b,
          content = a ++ str "public" ++ w1 ++ str "class" ++ w2 ++ c :: b
          /\ w1 <> [] /\ Forall (fun x => is_space x = true) w1
          /\ w2 <> [] /\ Forall (fun x => is_space x = true) w2
          /\ is_word uni_alnum c = true.
Proof.
  split.
  - intros Hnone (a & w1 & w2 & c & b & -> & N1 & S1 & N2 & S2 & Hc).
    unfold get_class_name in Hnone.
    destruct (search (class_name_pattern uni_alnum) _) as [mo|] eqn:Hs.
    + apply search_sound in Hs as (_ & _ & _ & _ & Hm).
      revert Hnone. unfold class_name_pattern in Hm. cbn [rseq] in Hm.
      invert_matches. discriminate.
    + revert Hs.
      apply (@search_complete _ _
               (str "public" ++ w1 ++ str "class" ++ w2 ++ [c]) [(1, [c])]).
      * unfold class_name_pattern. cbn [rseq].
        repeat (eapply M_Seq; [first [apply M_Lit | now apply plus_matches]|]).
        apply M_Group. now apply plus_matches; [discriminate|constructor].
      * exists a, b. same_text.
  - intros Hno. destruct (get_class_name uni_alnum content) as [cn|] eqn:Hcn;
      [|reflexivity].
    exfalso. apply Hno. exact (class_name_found _ _ Hcn).
Qed.

(** ** Announcements and attempts *)

Lemma process_file_relevant (uni_alnum : char -> bool) (w : world)
  (file_path content : text) (dry_run : bool) :
  w_fs w file_path = Some content -> is_relevant content = true ->
  exists p,
    process_file uni_alnum file_path dry_run w = Some p
    /\ p_content p = transform uni_alnum content
    /\ forall m, In m (step_messages uni_alnum content) ->
                 In m (w_console (p_world p)).
Proof.
  intros Hfs Hrel. rewrite process_file_eq, Hfs. eexists. split; [reflexivity|].
  unfold process_file_outcome. rewrite Hrel. cbn [negb].
  destruct (text_eqb (transform uni_alnum content) content);
    [|destruct dry_run]; cbn [p_content p_world w_console];
    (split; [reflexivity|]); intros m Hm;
    apply in_or_app; left; apply in_or_app; right; exact Hm.
Qed.

(** X16: the two lines [Agregando ...] of [process_file] announce an
    attempt, not an insertion.  On a relevant file without the marker
    import and without any import statement the line for the imports is
    printed and the text goes on to the next step unchanged; and when a
    class name is found but its opening brace does not follow the name, the
    line for the logger is printed and no declaration is inserted. *)
Theorem announced_without_insertion (uni_alnum : char -> bool) (w : world)
  (file_path content : text) (dry_run : bool) :
  w_fs w file_path = Some content -> is_relevant content = true ->
  (has_slf4j_import content = false ->
   finditer (import_pattern uni_alnum) content = [] ->
   exists p,
     process_file uni_alnum file_path dry_run w = Some p
     /\ In MsgAddingImports (w_console (p_world p))
     /\ p_content p = rewrite_calls (logger_step uni_alnum content))
  /\ (forall cn,
        get_class_name uni_alnum (import_step uni_alnum content) = Some cn ->
        has_logger_declaration (import_step uni_alnum content) = false ->
        search (class_pattern cn) (import_step uni_alnum content) = None ->
        exists p,
          process_file uni_alnum file_path dry_run w = Some p
          /\ In (MsgAddingLogger cn) (w_console (p_world p))
          /\ p_content p = rewrite_calls (import_step uni_alnum content)).
Proof.
  intros Hfs Hrel.
  destruct (process_file_relevant uni_alnum w file_path dry_run Hfs Hrel)
    as (p & Hp & Hcontent & Hmsgs).
  split.
  - intros Hhas Hfind. exists p. split; [exact Hp|]. split.
    + apply Hmsgs. unfold step_messages. rewrite Hhas. now left.
    + rewrite Hcontent. unfold transform, rewrite_calls.
      replace (import_step uni_alnum content) with content; [reflexivity|].
      unfold import_step, add_slf4j_import. rewrite Hhas, Hfind. reflexivity.
  - intros cn Hcn Hdecl Hsearch. exists p. split; [exact Hp|]. split.
    + apply Hmsgs. unfold step_messages. rewrite Hcn, Hdecl.
      destruct (class_name_shape _ _ Hcn) as [Hne _].
      apply text_eqb_neq in Hne. rewrite Hne.
      apply in_or_app. right. now left.
    + rewrite Hcontent. unfold transform, rewrite_calls.
      replace (logger_step uni_alnum (import_step uni_alnum content))
        with (import_step uni_alnum content); [reflexivity|].
      unfold logger_step, add_logger_declaration.
      rewrite Hcn, Hdecl, Hsearch.
      now destruct (negb (text_eqb cn []) && negb false).
Qed.

Lemma announced_without_insertion_witness :
  exists p,
    process_file ascii_only (str "./A.java") false
      (fresh_world (single_file (str "./A.java")
                      (str "System.out.println(x);"))) = Some p
    /\ In MsgAddingImports (w_console (p_world p))
    /\ p_content p
       = rewrite_calls (logger_step ascii_only (str "System.out.println(x);")).
Proof.
  apply (proj1 (@announced_without_insertion ascii_only
                  (fresh_world (single_file (str "./A.java")
                                  (str "System.out.println(x);")))
                  (str "./A.java") (str "System.out.println(x);") false
                  eq_refl eq_refl)).
  - reflexivity.
  - reflexivity.
Defined.

(** ** The effect of a run on the files *)






Lemma ends_with_app (w a s : text) :
  ends_with w s = true -> ends_with w (a ++ s) = true.
Proof.
  unfold ends_with. rewrite rev_app_distr, !starts_with_spec.
  intros (rest & ->). exists (rest ++ rev a). now rewrite app_assoc.
Qed.

Lemma java_files_suffix (t : dirtree) (f : text) :
  In f (java_files t) -> ends_with (str ".java") f = true.
Proof.
  intros H. apply java_files_origin in H as (r & d & n & _ & _ & _ & Hn & ->).
  unfold path_join.
  destruct (starts_with (str "/") n); [exact Hn|].
  destruct (text_eqb r [] || ends_with (str "/") r).
  - now apply ends_with_app.
  - now apply ends_with_app, ends_with_app.
Qed.

Lemma process_file_elsewhere (uni_alnum : char -> bool) (file_path : text)
  (dry_run : bool) (w : world) (p : processed) :
  process_file uni_alnum file_path dry_run w = Some p ->
  forall q, q <> file_path -> w_fs (p_world p) q = w_fs w q.
Proof.
  rewrite process_file_eq.
  destruct (w_fs w file_path) as [content|]; [|discriminate].
  intros Hp q Hq. injection Hp as <-. unfold process_file_outcome.
  destruct (negb (is_relevant content)); [reflexivity|].
  destruct (text_eqb (transform uni_alnum content) content); [reflexivity|].
  destruct dry_run; [reflexivity|].
  cbn [p_world w_fs]. unfold fs_write.
  destruct (text_eqb q file_path) eqn:E; [|reflexivity].
  apply text_eqb_eq in E. contradiction.
Qed.

Lemma process_all_elsewhere (uni_alnum : char -> bool) (files : list text)
  (dry_run : bool) :
  forall n w n' w',
    process_all uni_alnum files dry_run n w = Some (n', w') ->
    (forall q, ~ In q files -> w_fs w' q = w_fs w q)
    /\ (forall q, w_fs w' q = None <-> w_fs w q = None).
Proof.
  induction files as [|f files IH]; intros n w n' w' H.
  - cbn in H. injection H as _ <-. now split.
  - cbn [process_all] in H.
    destruct (process_file uni_alnum f dry_run w) as [p|] eqn:Hp;
      [|discriminate].
    apply IH in H as [H1 H2]. cbn [say w_fs] in H1, H2. split.
    + intros q Hq. rewrite H1 by (intros Hin; apply Hq; now right).
      apply (@process_file_elsewhere uni_alnum f dry_run w p Hp).
      intros ->. apply Hq. now left.
    + intros q. rewrite H2.
      apply (@process_file_keeps_domain uni_alnum f dry_run w p Hp).
Qed.

(** X18: a run of [main] that ends creates no file and removes none, and
    changes no file that was not collected, so none whose name does not end
    in [.java]. *)
Theorem main_touches_java_files_only (uni_alnum : char -> bool)
  (argv : list text) (t : dirtree) (w w' : world) :
  main uni_alnum argv t w = Some w' ->
  (forall q, w_fs w' q = None <-> w_fs w q = None)
  /\ (forall q, ends_with (str ".java") q = false -> w_fs w' q = w_fs w q)
  /\ (forall q, ~ In q (java_files t) -> w_fs w' q = w_fs w q).
Proof.
  unfold main.
  set (dry_run := existsb (text_eqb (str "--dry-run")) argv).
  set (w0 := say (MsgFound (length (java_files t)))
               (if dry_run then say MsgDryRunBanner w else w)).
  assert (Hfs : w_fs w0 = w_fs w) by (unfold w0; now destruct dry_run).
  destruct (process_all uni_alnum (java_files t) dry_run 0 w0)
    as [[n w1]|] eqn:Hall; [|discriminate].
  intros H. injection H as <-.
  apply process_all_elsewhere in Hall as [H1 H2]. rewrite Hfs in H1, H2.
  assert (E : forall q, w_fs (if dry_run
                              then say MsgHint
                                     (say (MsgSummary dry_run n
                                             (length (java_files t))) w1)
                              else say (MsgSummary dry_run n
                                          (length (java_files t))) w1) q
                        = w_fs w1 q)
    by (intros q; now destruct dry_run).
  split; [|split].
  - intros q. rewrite E. apply H2.
  - intros q Hq. rewrite E. apply H1. intros Hin.
    apply java_files_suffix in Hin. congruence.
  - intros q Hq. rewrite E. now apply H1.
Qed.

Lemma main_touches_java_files_only_witness :
  exists w',
    main ascii_only [str "migrate-to-slf4j.py"]
      (Dir [] [str "A.java"; str "notes.txt"])
      (fresh_world (single_file (str "./A.java") hello_call)) = Some w'
    /\ w_fs w' (str "./notes.txt") = None.
Proof.
  eexists. split.
  - vm_compute. reflexivity.
  - refine (proj2 (proj1 (@main_touches_java_files_only ascii_only
                            [str "migrate-to-slf4j.py"]
                            (Dir [] [str "A.java"; str "notes.txt"])
                            (fresh_world (single_file (str "./A.java") hello_call))
                            _ _) (str "./notes.txt")) eq_refl).
    vm_compute. reflexivity.
Defined.

(** ** What the rewriter needs to see *)

Lemma sub_without_opening (stream : text) (r : regex) (t : template)
  (s : text) :
  call_pattern stream r ->
  ~ occurs (println_open stream) s \/ ~ occurs (str ");") s ->
  sub r t s = s.
Proof.
  intros Hr Hfree. apply sub_unmatched. intros u v -> .
  destruct (match_here r v) as [res|] eqn:Hres; [|reflexivity].
  exfalso. apply match_here_sound in Hres as [Hv Hm].
  destruct Hfree as [Hfree|Hfree]; apply Hfree;
    apply occurs_app_l; rewrite Hv; apply occurs_app_r.
  - destruct (call_pattern_opening Hr Hm) as [m' ->]. apply occurs_here.
  - exact (call_pattern_closing Hr Hm).
Qed.

(** X19: a text is changed by the rewriter of a stream only if it holds
    both the opening of a call of that stream, up to the parenthesis, and a
    closing [);]: calls of [print] or [printf], and calls that do not end
    the statement, are never rewritten. *)
Theorem rewriter_needs_println (content : text) :
  (~ occurs (str "System.out.println(") content
   \/ ~ occurs (str ");") content ->
   replace_system_out content = content)
  /\ (~ occurs (str "System.err.println(") content
      \/ ~ occurs (str ");") content ->
      replace_system_err content = content).
Proof.
  split; intros H.
  - unfold replace_system_out, apply_patterns.
    cbn [println_patterns fold_left fst snd].
    rewrite (@sub_without_opening OUT _ _ content (or_introl eq_refl) H).
    rewrite (@sub_without_opening OUT _ _ content
               (or_intror (or_introl eq_refl)) H).
    exact (@sub_without_opening OUT _ _ content
             (or_intror (or_intror eq_refl)) H).
  - unfold replace_system_err, apply_patterns.
    cbn [println_patterns fold_left fst snd].
    rewrite (@sub_without_opening ERR _ _ content (or_introl eq_refl) H).
    rewrite (@sub_without_opening ERR _ _ content
               (or_intror (or_introl eq_refl)) H).
    exact (@sub_without_opening ERR _ _ content
             (or_intror (or_intror eq_refl)) H).
Qed.

Lemma rewriter_needs_println_witness :
  replace_system_out (str "System.out.print(x); System.out.printf(y);")
  = str "System.out.print(x); System.out.printf(y);".
Proof.
  apply (proj1 (@rewriter_needs_println
                  (str "System.out.print(x); System.out.printf(y);"))).
  left. apply not_occurs_by_test. reflexivity.
Defined.

(** ** The optional annotation of the class pattern *)













